(** * Secret Santa coordinator: the group store, the join/create/delete
    handlers and the draw of [src/src/App.tsx], shallowly embedded.

    Strings are Rocq strings of 8-bit code units; Firestore's document
    store is a [gmap] from document id to group document; Firestore's
    [updateDoc] on a missing document is rejected (it returns [None]);
    [serverTimestamp()] is the store's current time [now]; [Math.random]
    is a choice function [pick] with [Math.floor(Math.random() * (i + 1))
    = pick i], hence [pick i <= i]. *)

From stdpp Require Import base gmap strings list fin_maps.
From Stdlib Require Import Ascii Sorted.

Open Scope string_scope.

(** ** Data model (the TypeScript types of App.tsx) *)

Record MemberProfile := {
  displayName : string;
  photoURL : option string
}.

Record Assignment := {
  recipientId : string;
  recipientName : string;
  recipientPhotoURL : option string
}.

Record CustomField := {
  field_id : string;
  label : string;
  placeholder : option string
}.

(** [MemberResponse = { [fieldId: string]: string }] *)
Abbreviation MemberResponse := (gmap string string).

Record Group := {
  id : string;
  name : string;
  description : option string;
  ownerId : string;
  ownerName : string;
  ownerPhotoURL : option string;
  memberIds : list string;
  members : gmap string MemberProfile;
  assignments : option (gmap string Assignment);
  customFields : option (list CustomField);
  memberResponses : gmap string MemberResponse;
  createdAt : option Z;
  drawRunAt : option Z
}.

(** The firebase [User] as far as App.tsx reads it. *)
Record User := {
  uid : string;
  user_displayName : option string;
  email : option string;
  phoneNumber : option string;
  user_photoURL : option string
}.

(** The [groups] collection: document id to document. *)
Abbreviation Store := (gmap string Group).

(** Result of a handler, as seen by the user: a silent early [return],
    an error message ([setXError]), or completion (with the success
    message, if the handler sets one). *)
Inductive Outcome :=
| Ignored
| Failed (msg : string)
| Done (msg : option string).

(** ** JavaScript helpers *)

(** JavaScript's [||] on strings: the empty string is falsy. *)
Definition str_or (o : option string) (d : string) : string :=
  match o with
  | Some s => if String.eqb s "" then d else s
  | None => d
  end.

(** [getDisplayName] *)
Definition getDisplayName (user : User) : string :=
  str_or (user_displayName user)
    (str_or (email user) (str_or (phoneNumber user) "Anonymous gifter")).

(** White space removed by [String.prototype.trim] among 8-bit code
    units: TAB, LF, VT, FF, CR, SPACE and NO-BREAK SPACE. *)
Definition is_js_space (c : ascii) : bool :=
  let n := nat_of_ascii c in
  (Nat.eqb n 9 || Nat.eqb n 10 || Nat.eqb n 11 || Nat.eqb n 12
   || Nat.eqb n 13 || Nat.eqb n 32 || Nat.eqb n 160)%bool.

Fixpoint trim_start (s : string) : string :=
  match s with
  | EmptyString => EmptyString
  | String c s' => if is_js_space c then trim_start s' else s
  end.

Fixpoint trim_end (s : string) : string :=
  match s with
  | EmptyString => EmptyString
  | String c s' =>
      let r := trim_end s' in
      if (String.eqb r "" && is_js_space c)%bool then EmptyString else String c r
  end.

Definition trim (s : string) : string := trim_end (trim_start s).

(** [a.join(sep)] on an array of strings. *)
Fixpoint join (sep : string) (l : list string) : string :=
  match l with
  | [] => ""
  | [x] => x
  | x :: l' => x ++ sep ++ join sep l'
  end.

(** ** [shuffle] (lines 74-81) *)

Section Shuffle.
Context {A : Type} `{Inhabited A}.

(** [[copy[i], copy[j]] = [copy[j], copy[i]]]: the right-hand side is
    read first, then [copy[i]] and [copy[j]] are written in order. *)
Definition swap (i j : nat) (copy : list A) : list A :=
  let a := copy !!! j in
  let b := copy !!! i in
  <[j := b]> (<[i := a]> copy).

(** [for (let i = k; i > 0; i -= 1) { j = pick i; swap }] *)
Fixpoint shuffle_loop (pick : nat -> nat) (k : nat) (copy : list A) : list A :=
  match k with
  | 0 => copy
  | S k' => shuffle_loop pick k' (swap (S k') (pick (S k')) copy)
  end.

Definition shuffle (pick : nat -> nat) (items : list A) : list A :=
  let copy := items in
  shuffle_loop pick (length copy - 1) copy.
End Shuffle.

(** Outcomes of [Math.floor(Math.random() * (i + 1))] lie in [0, i]. *)
Definition valid_pick (pick : nat -> nat) : Prop := forall i, pick i <= i.

(** ** [handleRunDraw] (lines 377-420) *)

(** The assignment record built for [receiverId] (lines 399-405). *)
Definition assignment_for (members : gmap string MemberProfile)
    (receiverId : string) : Assignment :=
  let receiverProfile := members !! receiverId in
  {| recipientId := receiverId;
     recipientName := default "Mystery Santa" (displayName <$> receiverProfile);
     recipientPhotoURL := default None (photoURL <$> receiverProfile) |}.

(** The loop of lines 396-406, run for [index] in [0 .. k - 1]. *)
Fixpoint draw_loop (shuffledMembers : list string)
    (members : gmap string MemberProfile) (k : nat) : gmap string Assignment :=
  match k with
  | 0 => ∅
  | S index =>
      let acc := draw_loop shuffledMembers members index in
      let giverId := shuffledMembers !!! index in
      let receiverId :=
        shuffledMembers !!! ((index + 1) mod length shuffledMembers) in
      <[giverId := assignment_for members receiverId]> acc
  end.

Definition draw_assignments (group : Group) (pick : nat -> nat)
    : gmap string Assignment :=
  let shuffledMembers := shuffle pick (memberIds group) in
  draw_loop shuffledMembers (members group) (length shuffledMembers).

(** Firestore [updateDoc]: rejected when the document does not exist. *)
Definition updateDoc (st : Store) (docId : string) (f : Group -> Group)
    : option Store :=
  match st !! docId with
  | Some d => Some (<[docId := f d]> st)
  | None => None
  end.

(** The update of lines 408-411: [{ assignments, drawRunAt }]. *)
Definition set_draw (asg : gmap string Assignment) (now : Z) (d : Group) : Group :=
  {| id := id d; name := name d; description := description d;
     ownerId := ownerId d; ownerName := ownerName d;
     ownerPhotoURL := ownerPhotoURL d; memberIds := memberIds d;
     members := members d; assignments := Some asg;
     customFields := customFields d; memberResponses := memberResponses d;
     createdAt := createdAt d; drawRunAt := Some now |}.

Definition handleRunDraw (user : option User) (group : Group)
    (pick : nat -> nat) (now : Z) (st : Store) : Outcome * Store :=
  match user with
  | None => (Ignored, st)
  | Some u =>
      if negb (String.eqb (uid u) (ownerId group)) then (Ignored, st)
      else if Nat.ltb (length (memberIds group)) 2 then
        (Failed "You need at least two members to run a draw.", st)
      else
        let asg := draw_assignments group pick in
        match updateDoc st (id group) (set_draw asg now) with
        | Some st' =>
            (Done (Some "Draw completed! Everyone now has someone to surprise."), st')
        | None =>
            (Failed "Something went wrong running the draw. Please try again.", st)
        end
  end.

(** Following the giver-to-recipient chain [k] steps from [m]. *)
Fixpoint follow (asg : gmap string Assignment) (k : nat) (m : string)
    : option string :=
  match k with
  | 0 => Some m
  | S k' => follow asg k' m ≫= fun x => recipientId <$> asg !! x
  end.

(** ** [handleCreateGroup] (lines 253-302) *)

(** Firestore [addDoc]: the store writes the document under a fresh id
    [newId] of its choosing. A field given as [undefined] (here
    [customFields] when no field was authored) is stored as absent, which
    is Firestore's behaviour with [ignoreUndefinedProperties] set in the
    [./firebase] module; without it the call is rejected. *)
Definition addDoc (st : Store) (newId : string) (d : Group) : Store :=
  <[newId := d]> st.

(** The document of lines 271-289 ([createdAt: serverTimestamp()]). *)
Definition new_group (user : User) (newId trimmedName newGroupDescription : string)
    (fields : list CustomField) (now : Z) : Group :=
  {| id := newId;
     name := trimmedName;
     description := Some (str_or (Some (trim newGroupDescription)) "");
     ownerId := uid user;
     ownerName := getDisplayName user;
     ownerPhotoURL := user_photoURL user;
     memberIds := [uid user];
     members := {[ uid user := {| displayName := getDisplayName user;
                                  photoURL := user_photoURL user |} ]};
     assignments := None;
     customFields := if Nat.ltb 0 (length fields) then Some fields else None;
     memberResponses := ∅;
     createdAt := Some now;
     drawRunAt := None |}.

(** Returns the outcome, the id handed to [setSelectedGroupId] (if the
    handler calls it) and the store. *)
Definition handleCreateGroup (user : option User)
    (newGroupName newGroupDescription : string) (fields : list CustomField)
    (newId : string) (now : Z) (st : Store) : Outcome * option string * Store :=
  match user with
  | None => (Ignored, None, st)
  | Some u =>
      let trimmedName := trim newGroupName in
      if String.eqb trimmedName "" then
        (Failed "Give your group a name first.", None, st)
      else
        let st' := addDoc st newId
                     (new_group u newId trimmedName newGroupDescription fields now) in
        (Done (Some "Group created! Share the join code with your Santas."),
         Some newId, st')
  end.

(** ** [handleJoinGroup] (lines 304-375) *)

(** [!joinResponses[field.id] || !joinResponses[field.id].trim()] *)
Definition response_missing (joinResponses : MemberResponse) (field : CustomField)
    : bool :=
  match joinResponses !! field_id field with
  | None => true
  | Some r => (String.eqb r "" || String.eqb (trim r) "")%bool
  end.

(** [customFields.filter(field => !joinResponses[field.id] || ...)] *)
Definition missingFields (joinResponses : MemberResponse) (fields : list CustomField)
    : list CustomField :=
  filter (fun f => response_missing joinResponses f = true) fields.

(** The atomic update of lines 355-362, prepared from the snapshot. *)
Record JoinWrite := {
  jw_doc : string;
  jw_uid : string;
  jw_profile : MemberProfile;
  jw_responses : MemberResponse
}.

Inductive JoinStep :=
| JIgnored
| JFail (msg : string)
| JWrite (w : JoinWrite).

(** Lines 306-352: the checks made on the snapshot read by [getDoc]. *)
Definition join_check (user : option User) (joinCode : string)
    (joinResponses : MemberResponse) (st : Store) : JoinStep :=
  match user with
  | None => JIgnored
  | Some u =>
      let trimmedCode := trim joinCode in
      if String.eqb trimmedCode "" then JFail "Enter a join code."
      else
        match st !! trimmedCode with
        | None => JFail "No group found with that code."
        | Some data =>
            if bool_decide (uid u ∈ memberIds data) then
              JFail "You are already part of that group."
            else
              let fields := default [] (customFields data) in
              let missing := missingFields joinResponses fields in
              if (Nat.ltb 0 (length fields) && Nat.ltb 0 (length missing))%bool then
                JFail ("Please fill out all required fields: "
                       ++ join ", " (map label missing))
              else
                JWrite {| jw_doc := trimmedCode; jw_uid := uid u;
                          jw_profile := {| displayName := getDisplayName u;
                                           photoURL := user_photoURL u |};
                          jw_responses := joinResponses |}
        end
  end.

(** Firestore [arrayUnion(...ys)]: appends each element not yet present. *)
Definition arrayUnion (xs ys : list string) : list string :=
  fold_left (fun acc y => if bool_decide (y ∈ acc) then acc else app acc [y]) ys xs.

(** [{ memberIds: arrayUnion(uid), members.uid: profile,
       memberResponses.uid: joinResponses }] *)
Definition apply_join (w : JoinWrite) (d : Group) : Group :=
  {| id := id d; name := name d; description := description d;
     ownerId := ownerId d; ownerName := ownerName d;
     ownerPhotoURL := ownerPhotoURL d;
     memberIds := arrayUnion (memberIds d) [jw_uid w];
     members := <[jw_uid w := jw_profile w]> (members d);
     assignments := assignments d;
     customFields := customFields d;
     memberResponses := <[jw_uid w := jw_responses w]> (memberResponses d);
     createdAt := createdAt d; drawRunAt := drawRunAt d |}.

(** The write, applied to the store as it is when it reaches it. *)
Definition join_commit (w : JoinWrite) (st : Store) : option Store :=
  updateDoc st (jw_doc w) (apply_join w).

(** The whole handler, with no other write between the read and the
    write. *)
Definition handleJoinGroup (user : option User) (joinCode : string)
    (joinResponses : MemberResponse) (st : Store) : Outcome * Store :=
  match join_check user joinCode joinResponses st with
  | JIgnored => (Ignored, st)
  | JFail msg => (Failed msg, st)
  | JWrite w =>
      match join_commit w st with
      | Some st' => (Done (Some "Welcome aboard! You have joined the group."), st')
      | None => (Failed "Could not join that group. Please double-check the code.", st)
      end
  end.

(** ** [handleDeleteGroup] (lines 422-447) *)

(** Firestore [deleteDoc] (no error on a missing document). *)
Definition deleteDoc (st : Store) (docId : string) : Store := delete docId st.

Definition handleDeleteGroup (user : option User) (group : Group)
    (confirmed : bool) (st : Store) : Outcome * Store :=
  match user with
  | None => (Ignored, st)
  | Some u =>
      if negb (String.eqb (uid u) (ownerId group)) then (Ignored, st)
      else if negb confirmed then (Ignored, st)
      else (Done None, deleteDoc st (id group))
  end.

(** ** Selection effect (lines 179-185) *)

(** [if (selectedGroupId && groups.some(g => g.id === selectedGroupId))
    return; setSelectedGroupId(groups[0]?.id ?? null)]; the empty string
    is falsy. Returns the selection after the effect. *)
Definition resolveSelection (groups : list Group) (selectedGroupId : option string)
    : option string :=
  let fallback := id <$> head groups in
  match selectedGroupId with
  | Some s =>
      if (negb (String.eqb s "") && existsb (fun g => String.eqb (id g) s) groups)%bool
      then Some s else fallback
  | None => fallback
  end.

(** ** [loadGroupFields] (lines 199-233) *)

(** What [getDoc] yields: a document, no document, or a rejection. *)
Inductive Lookup :=
| LFound (d : Group)
| LMissing
| LError.

(** [initialResponses[field.id] = ''] for each field, in order. *)
Definition initial_responses (fields : list CustomField) : MemberResponse :=
  fold_left (fun acc f => <[field_id f := ""]> acc) fields ∅.

(** Returns the codes passed to [getDoc] and the new
    [joinGroupFields] and [joinResponses]. *)
Definition loadGroupFields (joinCode : string) (getDoc : string -> Lookup)
    : list string * list CustomField * MemberResponse :=
  let trimmedCode := trim joinCode in
  if (String.eqb trimmedCode "" || Nat.ltb (String.length trimmedCode) 20)%bool then
    ([], [], ∅)
  else
    match getDoc trimmedCode with
    | LFound data =>
        let fields := default [] (customFields data) in
        ([trimmedCode], fields, initial_responses fields)
    | LMissing => ([trimmedCode], [], ∅)
    | LError => ([trimmedCode], [], ∅)
    end.

(** ** Every store-mutating operation *)

Inductive Op :=
| OpCreate (user : option User) (nm desc : string) (fields : list CustomField)
    (newId : string) (now : Z)
| OpJoin (user : option User) (joinCode : string) (joinResponses : MemberResponse)
| OpJoinCommit (w : JoinWrite)  (* a join write landing after other writes *)
| OpDraw (user : option User) (group : Group) (pick : nat -> nat) (now : Z)
| OpDelete (user : option User) (group : Group) (confirmed : bool).

Definition exec_op (op : Op) (st : Store) : Store :=
  match op with
  | OpCreate u nm desc fields newId now =>
      (handleCreateGroup u nm desc fields newId now st).2
  | OpJoin u code resp => (handleJoinGroup u code resp st).2
  | OpJoinCommit w => default st (join_commit w st)
  | OpDraw u g pick now => (handleRunDraw u g pick now st).2
  | OpDelete u g c => (handleDeleteGroup u g c st).2
  end.

(** No user id twice in a group's [memberIds]. *)
Definition members_unique (st : Store) : Prop :=
  forall k d, st !! k = Some d -> NoDup (memberIds d).

(** ** The live group list (lines 131-168) *)

(** [a.createdAt?.toMillis?.() ?? 0] *)
Definition createdAt_millis (g : Group) : Z := default 0%Z (createdAt g).

(** The view built from one document of the snapshot (lines 140-159).
    The store documents of this model carry every field, so the [??]
    defaults of [name], [ownerId], [ownerName], [memberIds], [members],
    [memberResponses] do not fire; [customFields ?? []] does. *)
Definition group_of_doc (docId : string) (data : Group) : Group :=
  {| id := docId; name := name data; description := description data;
     ownerId := ownerId data; ownerName := ownerName data;
     ownerPhotoURL := ownerPhotoURL data; memberIds := memberIds data;
     members := members data; assignments := assignments data;
     customFields := Some (default [] (customFields data));
     memberResponses := memberResponses data;
     createdAt := createdAt data; drawRunAt := drawRunAt data |}.

(** [Array.prototype.sort] is stable and the comparator
    [(a, b) => bTime - aTime] is consistent, so the result is the unique
    stable ordering by decreasing [createdAt], computed by insertion:
    [g] goes before the first element that is strictly older. *)
Fixpoint insert_by_createdAt (g : Group) (l : list Group) : list Group :=
  match l with
  | [] => [g]
  | h :: l' =>
      if Z.leb (createdAt_millis g) (createdAt_millis h)
      then h :: insert_by_createdAt g l'
      else g :: h :: l'
  end.

Definition sort_by_createdAt_desc (l : list Group) : list Group :=
  fold_left (fun acc g => insert_by_createdAt g acc) l [].

(** [nextGroups]: the documents of the snapshot, mapped and sorted. *)
Definition snapshot_groups (docs : list (string * Group)) : list Group :=
  sort_by_createdAt_desc (map (fun '(k, d) => group_of_doc k d) docs).

(** The documents matching [where('memberIds', 'array-contains', uid)]. *)
Definition query_docs (userId : string) (st : Store) : list (string * Group) :=
  filter (fun '(k, d) => userId ∈ memberIds d) (map_to_list st).

(** [groups.find((group) => group.id === selectedGroupId) ?? null]
    (lines 187-190). *)
Definition selectedGroup (groups : list Group) (selectedGroupId : option string)
    : option Group :=
  match selectedGroupId with
  | None => None
  | Some s => find (fun g => String.eqb (id g) s) groups
  end.

(** ** The custom-field editor of the create form (lines 797-842) *)

#[global] Instance CustomField_inhabited : Inhabited CustomField :=
  populate {| field_id := ""; label := ""; placeholder := None |}.

(** [+ Add field]: [[...customFields, { id: generateFieldId(), label: '',
    placeholder: '' }]], with the generated id given. *)
Definition add_field (fields : list CustomField) (newFieldId : string)
    : list CustomField :=
  app fields [ {| field_id := newFieldId; label := ""; placeholder := Some "" |} ].

(** [updated[index] = { ...field, label: value }], where [field] is the
    element the [map] callback got at [index]. *)
Definition set_field_label (fields : list CustomField) (index : nat) (value : string)
    : list CustomField :=
  let field := fields !!! index in
  <[index := {| field_id := field_id field; label := value;
                placeholder := placeholder field |}]> fields.

(** [updated[index] = { ...field, placeholder: value }] *)
Definition set_field_placeholder (fields : list CustomField) (index : nat)
    (value : string) : list CustomField :=
  let field := fields !!! index in
  <[index := {| field_id := field_id field; label := label field;
                placeholder := Some value |}]> fields.

(** [customFields.filter((_, i) => i !== index)] *)
Definition remove_field (fields : list CustomField) (index : nat) : list CustomField :=
  map snd (filter (fun p => p.1 <> index) (zip (seq 0 (length fields)) fields)).

(** ** Answers shown in the roster and the match card (lines 632-642,
    682-692): [field.label: response] for each field whose response is
    truthy, when the group has fields and the member has responses. *)
Definition shown_responses (group : Group) (memberId : string)
    : list (string * string) :=
  let fields := default [] (customFields group) in
  if Nat.ltb 0 (length fields) then
    match memberResponses group !! memberId with
    | None => []
    | Some r =>
        omap (fun f => match r !! field_id f with
                       | Some v => if String.eqb v "" then None else Some (label f, v)
                       | None => None
                       end) fields
    end
  else [].

(** [getDoc] against the store, when the read goes through. *)
Definition store_getDoc (st : Store) (docId : string) : Lookup :=
  match st !! docId with
  | Some d => LFound d
  | None => LMissing
  end.

(** A string made only of white space. *)
Fixpoint all_space (s : string) : bool :=
  match s with
  | EmptyString => true
  | String c s' => (is_js_space c && all_space s')%bool
  end.

(** ** Example data *)

Definition ex_owner : User :=
  {| uid := "alice"; user_displayName := Some "Alice"; email := None;
     phoneNumber := None; user_photoURL := None |}.

Definition ex_guest : User :=
  {| uid := "bob"; user_displayName := None; email := Some "bob@example.com";
     phoneNumber := None; user_photoURL := None |}.

Definition ex_fields : list CustomField :=
  [ {| field_id := "field_1"; label := "Shirt size"; placeholder := None |};
    {| field_id := "field_2"; label := "Wish list"; placeholder := None |} ].

Definition ex_group : Group :=
  {| id := "AbCdEfGhIjKlMnOpQrSt";
     name := "Office Party"; description := Some ""; ownerId := "alice";
     ownerName := "Alice"; ownerPhotoURL := None;
     memberIds := ["alice"; "carol"; "dave"];
     members := {[ "alice" := {| displayName := "Alice"; photoURL := None |} ]};
     assignments := None; customFields := Some ex_fields;
     memberResponses := ∅; createdAt := Some 1%Z; drawRunAt := None |}.

Definition ex_store : Store := {[ "AbCdEfGhIjKlMnOpQrSt" := ex_group ]}.

Definition ex_solo : Group :=
  {| id := "SoloSoloSoloSoloSolo";
     name := "Solo"; description := None; ownerId := "alice";
     ownerName := "Alice"; ownerPhotoURL := None; memberIds := ["alice"];
     members := ∅; assignments := None; customFields := None;
     memberResponses := ∅; createdAt := None; drawRunAt := None |}.

(** Responses with the second field left out. *)
Definition ex_responses : MemberResponse := {[ "field_1" := "M" ]}.

(** Re-running the draw over a document that already holds assignments
    replaces them: the stored map does not depend on the previous one. *)
Definition ex_drawn : Group :=
  set_draw {[ "alice" := assignment_for ∅ "alice" ]} 5%Z ex_group.

(** Every call of [Math.random()] returning 0. *)
Definition ex_pick (i : nat) : nat := 0.

(** Answers to both fields of [ex_fields]. *)
Definition ex_full_responses : MemberResponse :=
  {[ "field_1" := "M"; "field_2" := "books" ]}.

(** The stored document once "erin" has joined; the owner's page still
    shows [ex_group]. *)
Definition ex_group_now : Group :=
  {| id := "AbCdEfGhIjKlMnOpQrSt";
     name := "Office Party"; description := Some ""; ownerId := "alice";
     ownerName := "Alice"; ownerPhotoURL := None;
     memberIds := ["alice"; "carol"; "dave"; "erin"];
     members := {[ "alice" := {| displayName := "Alice"; photoURL := None |} ]};
     assignments := None; customFields := Some ex_fields;
     memberResponses := ∅; createdAt := Some 1%Z; drawRunAt := None |}.

(** Two join writes for the same group, prepared before either lands. *)
Definition ex_write_guest : JoinWrite :=
  {| jw_doc := "AbCdEfGhIjKlMnOpQrSt"; jw_uid := "bob";
     jw_profile := {| displayName := "bob@example.com"; photoURL := None |};
     jw_responses := ex_full_responses |}.

Definition ex_write_erin : JoinWrite :=
  {| jw_doc := "AbCdEfGhIjKlMnOpQrSt"; jw_uid := "erin";
     jw_profile := {| displayName := "Erin"; photoURL := None |};
     jw_responses := ex_full_responses |}.

Definition ex_store_j1 : Store :=
  <[ "AbCdEfGhIjKlMnOpQrSt" := apply_join ex_write_guest ex_group ]> ex_store.

Definition ex_store_j2 : Store :=
  <[ "AbCdEfGhIjKlMnOpQrSt" :=
       apply_join ex_write_erin (apply_join ex_write_guest ex_group) ]> ex_store_j1.

(** Two groups of "alice", the older one listed first by the store. *)
Definition ex_store2 : Store :=
  {[ "SoloSoloSoloSoloSolo" := ex_solo; "AbCdEfGhIjKlMnOpQrSt" := ex_group ]}.

(** * Proofs *)

(** ** The shuffle is a permutation *)

Section ShuffleFacts.
Context {A : Type} `{Inhabited A}.
Local Open Scope list_scope.

Lemma swap_split (a b c : list A) (x y : A) :
  swap (length a) (length a + S (length b)) (a ++ x :: b ++ y :: c)
  = a ++ y :: b ++ x :: c.
Proof.
  unfold swap.
  rewrite !list_lookup_total_alt.
  rewrite lookup_app_r by lia. rewrite Nat.sub_diag. simpl.
  rewrite lookup_app_r by lia.
  replace (length a + S (length b) - length a) with (S (length b)) by lia. simpl.
  rewrite lookup_app_r by lia. rewrite Nat.sub_diag. simpl.
  rewrite <- (Nat.add_0_r (length a)) at 2.
  rewrite insert_app_r. simpl.
  rewrite insert_app_r. simpl.
  rewrite <- (Nat.add_0_r (length b)).
  rewrite insert_app_r. reflexivity.
Qed.

Lemma swap_same (i : nat) (l : list A) : i < length l -> swap i i l = l.
Proof.
  intros Hi. unfold swap.
  assert (Hl : l !! i = Some (l !!! i)) by (apply list_lookup_lookup_total_lt; lia).
  by rewrite !(list_insert_id l i (l !!! i) Hl).
Qed.

Lemma swap_comm (i j : nat) (l : list A) : i <> j -> swap i j l = swap j i l.
Proof. intros Hne. unfold swap. by rewrite list_insert_insert_ne. Qed.

Lemma swap_perm_lt (i j : nat) (l : list A) :
  i < j -> j < length l -> swap i j l ≡ₚ l.
Proof.
  intros Hij Hj.
  set (a := take i l). set (r := drop (S i) l).
  assert (Hl : l = a ++ l !!! i :: r).
  { symmetry. apply take_drop_middle. apply list_lookup_lookup_total_lt. lia. }
  assert (Ha : length a = i) by (unfold a; rewrite length_take; lia).
  assert (Hr : length r = length l - S i) by (unfold r; rewrite length_drop; lia).
  set (b := take (j - S i) r). set (c := drop (S (j - S i)) r).
  assert (Hr' : r = b ++ r !!! (j - S i) :: c).
  { symmetry. apply take_drop_middle. apply list_lookup_lookup_total_lt. lia. }
  assert (Hb : length b = j - S i) by (unfold b; rewrite length_take; lia).
  rewrite Hl, Hr'.
  replace i with (length a) by lia.
  replace j with (length a + S (length b)) by lia.
  rewrite swap_split.
  apply Permutation_app_head.
  rewrite <- !Permutation_middle.
  apply perm_swap.
Qed.

Lemma length_swap (i j : nat) (l : list A) : length (swap i j l) = length l.
Proof. unfold swap. by rewrite !length_insert. Qed.

Lemma swap_perm (i j : nat) (l : list A) :
  i < length l -> j < length l -> swap i j l ≡ₚ l.
Proof.
  intros Hi Hj.
  destruct (Nat.lt_trichotomy i j) as [Hlt|[->|Hgt]].
  - by apply swap_perm_lt.
  - by rewrite swap_same.
  - rewrite swap_comm by lia. by apply swap_perm_lt.
Qed.

Lemma shuffle_loop_perm (pick : nat -> nat) (k : nat) (l : list A) :
  valid_pick pick -> k < length l -> shuffle_loop pick k l ≡ₚ l.
Proof.
  intros Hpick. revert l.
  induction k as [|k IH]; intros l Hk; simpl; [reflexivity|].
  specialize (Hpick (S k)).
  rewrite IH by (rewrite length_swap; lia).
  apply swap_perm; lia.
Qed.

Lemma shuffle_perm (pick : nat -> nat) (items : list A) :
  valid_pick pick -> shuffle pick items ≡ₚ items.
Proof.
  intros Hpick. unfold shuffle.
  destruct items as [|x l]; [reflexivity|].
  apply shuffle_loop_perm; [done|simpl; lia].
Qed.
End ShuffleFacts.

(** ** The assignment map of the draw loop *)

Lemma mod_add_small (n i t : nat) :
  i < n -> t < n ->
  (i + t) mod n = if decide (i + t < n) then i + t else i + t - n.
Proof.
  intros Hi Ht. case_decide.
  - by apply Nat.mod_small.
  - replace (i + t) with (i + t - n + 1 * n) at 1 by lia.
    rewrite Nat.Div0.mod_add. apply Nat.mod_small. lia.
Qed.

Lemma NoDup_lookup_total_inj (s : list string) (i j : nat) :
  NoDup s -> i < length s -> j < length s -> s !!! i = s !!! j -> i = j.
Proof.
  intros Hnd Hi Hj Heq.
  apply (NoDup_lookup s i j (s !!! i) Hnd).
  - by apply list_lookup_lookup_total_lt.
  - rewrite Heq. by apply list_lookup_lookup_total_lt.
Qed.

Lemma draw_loop_spec (s : list string) (mem : gmap string MemberProfile) (k : nat) :
  NoDup s -> k <= length s ->
  (forall i, i < k ->
     draw_loop s mem k !! (s !!! i)
     = Some (assignment_for mem (s !!! ((i + 1) mod length s)))) /\
  (forall x, x ∉ take k s -> draw_loop s mem k !! x = None).
Proof.
  intros Hnd. induction k as [|k IH]; intros Hk.
  - split; [intros; lia|]. intros x _. apply lookup_empty.
  - destruct IH as [IH1 IH2]; [lia|]. cbn [draw_loop]. split.
    + intros i Hi.
      destruct (decide (i = k)) as [->|Hne].
      * apply lookup_insert_eq.
      * rewrite lookup_insert_ne; [apply IH1; lia|].
        intros Heq. apply Hne. symmetry.
        apply (NoDup_lookup_total_inj s k i); auto; lia.
    + intros x Hx.
      rewrite (take_S_r s k (s !!! k)) in Hx
        by (apply list_lookup_lookup_total_lt; lia).
      rewrite lookup_insert_ne.
      * apply IH2. intros Hin. apply Hx. apply elem_of_app. by left.
      * intros <-. apply Hx. apply elem_of_app. right. by apply list_elem_of_singleton.
Qed.

Lemma draw_loop_full (s : list string) (mem : gmap string MemberProfile) :
  NoDup s ->
  (forall i, i < length s ->
     draw_loop s mem (length s) !! (s !!! i)
     = Some (assignment_for mem (s !!! ((i + 1) mod length s)))) /\
  (forall x, x ∉ s -> draw_loop s mem (length s) !! x = None).
Proof.
  intros Hnd. destruct (draw_loop_spec s mem (length s) Hnd (le_n _)) as [H1 H2].
  split; [done|]. intros x Hx. apply H2. by rewrite take_ge.
Qed.

Lemma follow_draw_loop (s : list string) (mem : gmap string MemberProfile)
    (i t : nat) :
  NoDup s -> i < length s ->
  follow (draw_loop s mem (length s)) t (s !!! i)
  = Some (s !!! ((i + t) mod length s)).
Proof.
  intros Hnd Hi. destruct (draw_loop_full s mem Hnd) as [H1 _].
  induction t as [|t IH]; simpl.
  - by rewrite Nat.add_0_r, Nat.mod_small.
  - rewrite IH. simpl.
    rewrite H1 by (apply Nat.mod_upper_bound; lia). simpl.
    f_equal. f_equal.
    rewrite Nat.Div0.add_mod_idemp_l. f_equal. lia.
Qed.

Section DrawCycle.
Local Open Scope list_scope.
Variable s : list string.
Variable mem : gmap string MemberProfile.
Hypothesis Hnd : NoDup s.
Hypothesis Hlen : 2 <= length s.

Local Abbreviation asg := (draw_loop s mem (length s)).

Lemma draw_lookup_Some (g : string) (a : Assignment) :
  asg !! g = Some a ->
  exists i, i < length s /\ g = s !!! i /\
            a = assignment_for mem (s !!! ((i + 1) mod length s)).
Proof.
  intros Ha. destruct (draw_loop_full s mem Hnd) as [H1 H2].
  destruct (decide (g ∈ s)) as [Hin|Hout].
  - apply list_elem_of_lookup_total in Hin as (i & Hi & <-).
    exists i. split; [done|split; [done|]].
    rewrite H1 in Ha by done. by injection Ha.
  - by rewrite H2 in Ha.
Qed.

Lemma draw_dom : dom asg = list_to_set s.
Proof.
  destruct (draw_loop_full s mem Hnd) as [H1 H2].
  apply set_eq. intros x. rewrite elem_of_dom, elem_of_list_to_set.
  split.
  - intros [a Ha]. destruct (draw_lookup_Some x a Ha) as (i & Hi & -> & _).
    by apply list_elem_of_lookup_total_2.
  - intros Hin. apply list_elem_of_lookup_total in Hin as (i & Hi & <-).
    rewrite H1 by done. by eexists.
Qed.

Lemma draw_recipient (g : string) (a : Assignment) :
  asg !! g = Some a -> recipientId a ∈ s /\ recipientId a <> g.
Proof.
  intros Ha. destruct (draw_lookup_Some g a Ha) as (i & Hi & -> & ->). simpl.
  assert (Hm : (i + 1) mod length s < length s) by (apply Nat.mod_upper_bound; lia).
  split; [by apply list_elem_of_lookup_total_2|].
  intros Heq. apply NoDup_lookup_total_inj in Heq; [|done|done|done].
  rewrite mod_add_small in Heq by lia. case_decide; lia.
Qed.

Lemma draw_injective (g1 g2 : string) (a1 a2 : Assignment) :
  asg !! g1 = Some a1 -> asg !! g2 = Some a2 ->
  recipientId a1 = recipientId a2 -> g1 = g2.
Proof.
  intros Ha1 Ha2.
  destruct (draw_lookup_Some g1 a1 Ha1) as (i1 & Hi1 & -> & ->).
  destruct (draw_lookup_Some g2 a2 Ha2) as (i2 & Hi2 & -> & ->). simpl.
  intros Heq. apply NoDup_lookup_total_inj in Heq;
    [|done|apply Nat.mod_upper_bound; lia|apply Nat.mod_upper_bound; lia].
  rewrite !mod_add_small in Heq by lia.
  f_equal. repeat case_decide; lia.
Qed.

Lemma draw_cycle (m : string) :
  m ∈ s ->
  map (fun t => follow asg t m) (seq 0 (length s)) ≡ₚ map Some s /\
  follow asg (length s) m = Some m.
Proof.
  intros Hin. apply list_elem_of_lookup_total in Hin as (i & Hi & <-).
  split.
  - rewrite (map_ext_in _ (fun t => Some (s !!! ((i + t) mod length s))))
      by (intros t _; by apply follow_draw_loop).
    apply NoDup_Permutation.
    + apply NoDup_ListNoDup, NoDup_map_NoDup_ForallPairs; [|apply seq_NoDup].
      intros t1 t2 Ht1 Ht2 Heq. injection Heq as Heq.
      apply in_seq in Ht1, Ht2.
      apply NoDup_lookup_total_inj in Heq;
        [|done|apply Nat.mod_upper_bound; lia|apply Nat.mod_upper_bound; lia].
      rewrite !mod_add_small in Heq by lia. repeat case_decide; lia.
    + apply NoDup_ListNoDup, NoDup_map_NoDup_ForallPairs;
        [intros ? ? _ _ Heq; by injection Heq|by apply NoDup_ListNoDup].
    + intros x. rewrite !list_elem_of_In, !in_map_iff. split.
      * intros (t & <- & Ht). eexists. split; [reflexivity|].
        apply list_elem_of_In, list_elem_of_lookup_total_2.
        apply Nat.mod_upper_bound; lia.
      * intros (y & <- & Hy). apply list_elem_of_In in Hy.
        apply list_elem_of_lookup_total in Hy as (p & Hp & <-).
        exists (if decide (i <= p) then p - i else p + length s - i).
        split; [|apply in_seq; case_decide; lia].
        do 2 f_equal. rewrite mod_add_small by (repeat case_decide; lia).
        repeat case_decide; lia.
  - rewrite follow_draw_loop by done. do 2 f_equal.
    replace (i + length s) with (i + 1 * length s) by lia.
    rewrite Nat.Div0.mod_add. by apply Nat.mod_small.
Qed.
End DrawCycle.

Lemma draw_assignments_unfold (group : Group) (pick : nat -> nat) :
  draw_assignments group pick
  = draw_loop (shuffle pick (memberIds group)) (members group)
      (length (shuffle pick (memberIds group))).
Proof. reflexivity. Qed.

(** ** Claims *)

(** C1. For a group whose [memberIds] are distinct user ids (the set
    invariant of the data model, kept by every operation: see C5) and
    number n >= 2, a draw run by the owner on an existing group document
    commits an assignment map whose domain is [memberIds], whose
    recipients are members other than the giver and pairwise distinct
    (a bijection without fixed points), and along which the chain of
    recipients from any member visits every member exactly once in n
    steps and then returns to it: one single cycle, for every outcome
    of the random choices of [shuffle]. *)
Theorem runDraw_single_cycle (u : User) (group d : Group) (pick : nat -> nat)
    (now : Z) (st : Store) :
  valid_pick pick ->
  uid u = ownerId group ->
  NoDup (memberIds group) ->
  2 <= length (memberIds group) ->
  st !! id group = Some d ->
  exists asg : gmap string Assignment,
    handleRunDraw (Some u) group pick now st
    = (Done (Some "Draw completed! Everyone now has someone to surprise."),
       <[id group := set_draw asg now d]> st) /\
    dom asg = list_to_set (memberIds group) /\
    (forall g a, asg !! g = Some a ->
       recipientId a ∈ memberIds group /\ recipientId a <> g) /\
    (forall g1 g2 a1 a2, asg !! g1 = Some a1 -> asg !! g2 = Some a2 ->
       recipientId a1 = recipientId a2 -> g1 = g2) /\
    (forall m, m ∈ memberIds group ->
       map (fun t => follow asg t m) (seq 0 (length (memberIds group)))
         ≡ₚ map Some (memberIds group) /\
       follow asg (length (memberIds group)) m = Some m).
Proof.
  intros Hpick Hown Hnd Hlen Hst.
  exists (draw_assignments group pick).
  pose proof (shuffle_perm pick (memberIds group) Hpick) as Hperm.
  set (s := shuffle pick (memberIds group)) in *.
  assert (Hnds : NoDup s) by (by rewrite Hperm).
  assert (Hls : length s = length (memberIds group)) by (by apply Permutation_length).
  rewrite draw_assignments_unfold. fold s.
  split; [|split; [|split; [|split]]].
  - unfold handleRunDraw. rewrite Hown, String.eqb_refl. simpl.
    replace (Nat.ltb (length (memberIds group)) 2) with false
      by (symmetry; apply Nat.ltb_ge; lia).
    unfold updateDoc. rewrite Hst. rewrite draw_assignments_unfold. reflexivity.
  - rewrite draw_dom by (done || lia).
    apply set_eq. intros x. rewrite !elem_of_list_to_set. by rewrite Hperm.
  - intros g a Ha. rewrite <- Hperm. by apply (draw_recipient s (members group)); [|lia|].
  - intros g1 g2 a1 a2. by apply (draw_injective s (members group)); [|lia].
  - intros m Hm. rewrite <- Hperm in Hm.
    destruct (draw_cycle s (members group) Hnds ltac:(lia) m Hm) as [Hc Hr].
    rewrite <- Hls, <- Hperm. split; [done|done].
Qed.

Lemma runDraw_single_cycle_witness :
  NoDup (memberIds ex_group) /\
  exists asg : gmap string Assignment,
    handleRunDraw (Some ex_owner) ex_group ex_pick 7%Z ex_store
    = (Done (Some "Draw completed! Everyone now has someone to surprise."),
       <[id ex_group := set_draw asg 7%Z ex_group]> ex_store) /\
    dom asg = list_to_set (memberIds ex_group) /\
    (forall g a, asg !! g = Some a ->
       recipientId a ∈ memberIds ex_group /\ recipientId a <> g) /\
    (forall g1 g2 a1 a2, asg !! g1 = Some a1 -> asg !! g2 = Some a2 ->
       recipientId a1 = recipientId a2 -> g1 = g2) /\
    (forall m, m ∈ memberIds ex_group ->
       map (fun t => follow asg t m) (seq 0 (length (memberIds ex_group)))
         ≡ₚ map Some (memberIds ex_group) /\
       follow asg (length (memberIds ex_group)) m = Some m).
Proof.
  split; [apply (bool_decide_unpack _); vm_compute; reflexivity|].
  apply (runDraw_single_cycle ex_owner ex_group ex_group ex_pick 7%Z ex_store).
  - intros i. unfold ex_pick. lia.
  - reflexivity.
  - apply (bool_decide_unpack _). vm_compute. reflexivity.
  - simpl. lia.
  - reflexivity.
Defined.

(** C2. When the signed-in owner runs the draw on a group with fewer
    than two entries in [memberIds], the handler reports the
    insufficient-members error and writes nothing: the store, hence the
    group's [assignments], is unchanged. *)
Theorem runDraw_insufficient_members (u : User) (group : Group)
    (pick : nat -> nat) (now : Z) (st : Store) :
  uid u = ownerId group ->
  length (memberIds group) < 2 ->
  handleRunDraw (Some u) group pick now st
  = (Failed "You need at least two members to run a draw.", st).
Proof.
  intros Hown Hlen. unfold handleRunDraw.
  rewrite Hown, String.eqb_refl. simpl.
  replace (Nat.ltb (length (memberIds group)) 2) with true
    by (symmetry; apply Nat.ltb_lt; lia).
  reflexivity.
Qed.

Lemma runDraw_insufficient_members_witness :
  length (memberIds ex_solo) < 2 /\
  handleRunDraw (Some ex_owner) ex_solo ex_pick 7%Z ex_store
  = (Failed "You need at least two members to run a draw.", ex_store).
Proof.
  split; [simpl; lia|].
  apply (runDraw_insufficient_members ex_owner ex_solo ex_pick 7%Z ex_store).
  - reflexivity.
  - simpl. lia.
Defined.

(** A field is reported missing exactly when it has no response or a
    response that is empty after [trim]. *)
Lemma missingFields_spec (resp : MemberResponse) (fields : list CustomField)
    (f : CustomField) :
  f ∈ missingFields resp fields <->
  f ∈ fields /\
  (resp !! field_id f = None \/ exists r, resp !! field_id f = Some r /\ trim r = "").
Proof.
  unfold missingFields. rewrite list_elem_of_filter.
  unfold response_missing.
  destruct (resp !! field_id f) as [r|] eqn:Hr.
  - rewrite Bool.orb_true_iff, !String.eqb_eq. split.
    + intros [Hb Hf]. split; [done|]. right. exists r. split; [done|].
      destruct Hb as [-> | Ht]; [reflexivity|done].
    + intros [Hf [Hn | (r' & Hr' & Ht)]]; [discriminate|].
      injection Hr' as <-. split; auto.
  - split; [intros [_ Hf]; auto|intros [Hf _]; auto].
Qed.

(** C3. A join whose trimmed code names an existing group the user is
    not yet a member of, while at least one of the group's custom fields
    has no response or a blank one, fails with the message listing the
    labels of exactly those fields, in field order, and leaves the store
    unchanged (no member, profile or responses written). *)
Theorem join_incomplete_responses (u : User) (joinCode : string)
    (resp : MemberResponse) (st : Store) (g : Group) :
  trim joinCode <> "" ->
  st !! trim joinCode = Some g ->
  uid u ∉ memberIds g ->
  (exists f, f ∈ default [] (customFields g) /\
     (resp !! field_id f = None \/
      exists r, resp !! field_id f = Some r /\ trim r = "")) ->
  handleJoinGroup (Some u) joinCode resp st
  = (Failed ("Please fill out all required fields: "
             ++ join ", " (map label (missingFields resp (default [] (customFields g))))),
     st) /\
  (forall f, f ∈ missingFields resp (default [] (customFields g)) <->
     f ∈ default [] (customFields g) /\
     (resp !! field_id f = None \/
      exists r, resp !! field_id f = Some r /\ trim r = "")).
Proof.
  intros Hcode Hst Hnot (f & Hf & Hblank).
  split; [|apply missingFields_spec].
  assert (Hm : f ∈ missingFields resp (default [] (customFields g)))
    by (apply missingFields_spec; auto).
  unfold handleJoinGroup, join_check. cbv zeta.
  rewrite (proj2 (String.eqb_neq _ _) Hcode), Hst.
  rewrite bool_decide_eq_false_2 by done.
  destruct (default [] (customFields g)) as [|f0 fs] eqn:Hfs;
    [by apply not_elem_of_nil in Hf|].
  destruct (missingFields resp (f0 :: fs)) as [|m ms] eqn:Hms;
    [by apply not_elem_of_nil in Hm|].
  reflexivity.
Qed.

Lemma join_incomplete_responses_witness :
  handleJoinGroup (Some ex_guest) "  AbCdEfGhIjKlMnOpQrSt " ex_responses ex_store
  = (Failed ("Please fill out all required fields: "
             ++ join ", " (map label (missingFields ex_responses
                                         (default [] (customFields ex_group))))),
     ex_store) /\
  (forall f, f ∈ missingFields ex_responses (default [] (customFields ex_group)) <->
     f ∈ default [] (customFields ex_group) /\
     (ex_responses !! field_id f = None \/
      exists r, ex_responses !! field_id f = Some r /\ trim r = "")).
Proof.
  apply (join_incomplete_responses ex_guest "  AbCdEfGhIjKlMnOpQrSt " ex_responses
           ex_store ex_group).
  - vm_compute. discriminate.
  - reflexivity.
  - apply (bool_decide_unpack _). vm_compute. reflexivity.
  - exists {| field_id := "field_2"; label := "Wish list"; placeholder := None |}.
    split.
    + apply list_elem_of_In. simpl. right. left. reflexivity.
    + left. reflexivity.
Defined.

(** C4 (as the code has it). A signed-in user who is not the group's
    owner gets a silent early return from both [handleRunDraw] and
    [handleDeleteGroup]: no error message is set and the store is
    unchanged (no assignments, no [drawRunAt], no deletion). *)
Theorem non_owner_ignored (u : User) (group : Group) (pick : nat -> nat)
    (now : Z) (confirmed : bool) (st : Store) :
  uid u <> ownerId group ->
  handleRunDraw (Some u) group pick now st = (Ignored, st) /\
  handleDeleteGroup (Some u) group confirmed st = (Ignored, st).
Proof.
  intros Hne. unfold handleRunDraw, handleDeleteGroup.
  rewrite (proj2 (String.eqb_neq _ _) Hne). split; reflexivity.
Qed.

Lemma non_owner_ignored_witness :
  handleRunDraw (Some ex_guest) ex_group ex_pick 7%Z ex_store = (Ignored, ex_store) /\
  handleDeleteGroup (Some ex_guest) ex_group true ex_store = (Ignored, ex_store).
Proof.
  apply (non_owner_ignored ex_guest ex_group ex_pick 7%Z true ex_store).
  vm_compute. discriminate.
Defined.

(** C4 fails as stated: a non-owner's draw or delete reports no
    Forbidden error (no failure message of any kind). *)
Lemma non_owner_no_forbidden_error :
  ~ (exists msg, (handleRunDraw (Some ex_guest) ex_group ex_pick 7%Z ex_store).1
                 = Failed msg) /\
  ~ (exists msg, (handleDeleteGroup (Some ex_guest) ex_group true ex_store).1
                 = Failed msg).
Proof.
  split; intros [msg Hmsg]; vm_compute in Hmsg; discriminate.
Qed.

(** ** The membership invariant *)

Lemma arrayUnion_NoDup (xs ys : list string) :
  NoDup xs -> NoDup (arrayUnion xs ys).
Proof.
  unfold arrayUnion. revert xs.
  induction ys as [|y ys IH]; intros xs Hxs; simpl; [done|].
  apply IH. case_bool_decide as Hy; [done|].
  apply NoDup_app. split; [done|split; [|apply NoDup_singleton]].
  intros x Hx Hx'. apply list_elem_of_singleton in Hx' as ->. done.
Qed.

Lemma members_unique_insert (st : Store) (k : string) (d : Group) :
  members_unique st -> NoDup (memberIds d) -> members_unique (<[k := d]> st).
Proof.
  intros Hst Hd k' d' Hk'.
  rewrite lookup_insert in Hk'. case_decide; [by simplify_eq|by eapply Hst].
Qed.

Lemma members_unique_updateDoc (st st' : Store) (k : string) (f : Group -> Group) :
  members_unique st ->
  (forall d, NoDup (memberIds d) -> NoDup (memberIds (f d))) ->
  updateDoc st k f = Some st' -> members_unique st'.
Proof.
  intros Hst Hf Hup. unfold updateDoc in Hup.
  destruct (st !! k) as [d|] eqn:Hk; [|discriminate].
  injection Hup as <-. apply members_unique_insert; [done|].
  apply Hf. by eapply Hst.
Qed.

Lemma join_commit_unique (w : JoinWrite) (st st' : Store) :
  members_unique st -> join_commit w st = Some st' -> members_unique st'.
Proof.
  intros Hst. apply members_unique_updateDoc; [done|].
  intros d Hd. cbn [apply_join memberIds]. by apply arrayUnion_NoDup.
Qed.

Lemma exec_op_unique (op : Op) (st : Store) :
  members_unique st -> members_unique (exec_op op st).
Proof.
  intros Hst. destruct op as [u nm desc fields newId now|u code resp|w
                             |u g pick now|u g c]; simpl.
  - unfold handleCreateGroup. destruct u as [u|]; [|done].
    destruct (String.eqb (trim nm) ""); [done|]. simpl.
    apply members_unique_insert; [done|]. apply NoDup_singleton.
  - unfold handleJoinGroup.
    destruct (join_check u code resp st) as [|msg|w]; [done|done|].
    destruct (join_commit w st) as [st'|] eqn:Hc; [|done].
    by eapply join_commit_unique.
  - destruct (join_commit w st) as [st'|] eqn:Hc; [|done].
    by eapply join_commit_unique.
  - unfold handleRunDraw. destruct u as [u|]; [|done].
    destruct (negb (String.eqb (uid u) (ownerId g))); [done|].
    destruct (Nat.ltb (length (memberIds g)) 2); [done|].
    destruct (updateDoc st (id g) (set_draw (draw_assignments g pick) now))
      as [st'|] eqn:Hup; [|done].
    eapply members_unique_updateDoc; [done| |done]. by intros d Hd.
  - unfold handleDeleteGroup. destruct u as [u|]; [|done].
    destruct (negb (String.eqb (uid u) (ownerId g))); [done|].
    destruct (negb c); [done|]. simpl.
    intros k d Hk. unfold deleteDoc in Hk. rewrite lookup_delete in Hk.
    case_decide; [discriminate|by eapply Hst].
Qed.

(** C5. A join by a user whose id is already in the group's
    [memberIds] fails with the already-member message and leaves the
    store unchanged; and every operation (create, a whole join, a join
    write landing after other writes, draw, delete) keeps every group's
    [memberIds] free of duplicates. *)
Theorem join_already_member_unique :
  (forall (u : User) (joinCode : string) (resp : MemberResponse) (st : Store)
          (g : Group),
     trim joinCode <> "" ->
     st !! trim joinCode = Some g ->
     uid u ∈ memberIds g ->
     handleJoinGroup (Some u) joinCode resp st
     = (Failed "You are already part of that group.", st)) /\
  (forall (op : Op) (st : Store),
     members_unique st -> members_unique (exec_op op st)).
Proof.
  split; [|apply exec_op_unique].
  intros u joinCode resp st g Hcode Hst Hin.
  unfold handleJoinGroup, join_check. cbv zeta.
  rewrite (proj2 (String.eqb_neq _ _) Hcode), Hst.
  rewrite bool_decide_eq_true_2 by done. reflexivity.
Qed.

Lemma join_already_member_unique_witness :
  handleJoinGroup (Some ex_owner) "AbCdEfGhIjKlMnOpQrSt" ex_responses ex_store
  = (Failed "You are already part of that group.", ex_store) /\
  members_unique (exec_op (OpJoin (Some ex_guest) "AbCdEfGhIjKlMnOpQrSt"
                             {[ "field_1" := "M"; "field_2" := "books" ]}) ex_store).
Proof.
  split.
  - apply (proj1 join_already_member_unique ex_owner "AbCdEfGhIjKlMnOpQrSt"
             ex_responses ex_store ex_group).
    + vm_compute. discriminate.
    + reflexivity.
    + apply (bool_decide_unpack _). vm_compute. reflexivity.
  - apply (proj2 join_already_member_unique).
    intros k d Hk. unfold ex_store in Hk.
    apply lookup_singleton_Some in Hk as [_ <-].
    apply (bool_decide_unpack _). vm_compute. reflexivity.
Defined.

(** C6. Creating a group with a name that is blank after [trim] fails
    with the validation message and writes nothing; otherwise the store
    gains the document under the id the store assigned, with the creator
    as only member (with their profile) and as owner, no assignments,
    empty [memberResponses], the trimmed name, the store's time as
    [createdAt], and that id is handed on as the new selection. *)
Theorem create_group_spec (u : User) (newGroupName newGroupDescription : string)
    (fields : list CustomField) (newId : string) (now : Z) (st : Store) :
  (trim newGroupName = "" ->
   handleCreateGroup (Some u) newGroupName newGroupDescription fields newId now st
   = (Failed "Give your group a name first.", None, st)) /\
  (trim newGroupName <> "" ->
   exists g : Group,
     handleCreateGroup (Some u) newGroupName newGroupDescription fields newId now st
     = (Done (Some "Group created! Share the join code with your Santas."),
        Some newId, <[newId := g]> st) /\
     id g = newId /\ name g = trim newGroupName /\
     memberIds g = [uid u] /\
     members g = {[ uid u := {| displayName := getDisplayName u;
                                photoURL := user_photoURL u |} ]} /\
     ownerId g = uid u /\ ownerName g = getDisplayName u /\
     ownerPhotoURL g = user_photoURL u /\
     assignments g = None /\ memberResponses g = ∅ /\
     createdAt g = Some now /\ drawRunAt g = None).
Proof.
  split.
  - intros Hblank. unfold handleCreateGroup. cbv zeta.
    rewrite Hblank. reflexivity.
  - intros Hname.
    exists (new_group u newId (trim newGroupName) newGroupDescription fields now).
    unfold handleCreateGroup. cbv zeta.
    rewrite (proj2 (String.eqb_neq _ _) Hname).
    repeat split.
Qed.

Lemma create_group_spec_witness :
  handleCreateGroup (Some ex_owner) "   " "" [] "NewGroupId0000000000" 3%Z ex_store
  = (Failed "Give your group a name first.", None, ex_store) /\
  exists g : Group,
    handleCreateGroup (Some ex_owner) " Office Party " "" [] "NewGroupId0000000000" 3%Z ex_store
    = (Done (Some "Group created! Share the join code with your Santas."),
       Some "NewGroupId0000000000", <[ "NewGroupId0000000000" := g ]> ex_store) /\
    id g = "NewGroupId0000000000" /\ name g = trim " Office Party " /\
    memberIds g = [uid ex_owner] /\
    members g = {[ uid ex_owner := {| displayName := getDisplayName ex_owner;
                                     photoURL := user_photoURL ex_owner |} ]} /\
    ownerId g = uid ex_owner /\ ownerName g = getDisplayName ex_owner /\
    ownerPhotoURL g = user_photoURL ex_owner /\
    assignments g = None /\ memberResponses g = ∅ /\
    createdAt g = Some 3%Z /\ drawRunAt g = None.
Proof.
  split.
  - apply (proj1 (create_group_spec ex_owner "   " "" [] "NewGroupId0000000000" 3%Z ex_store)).
    reflexivity.
  - apply (proj2 (create_group_spec ex_owner " Office Party " "" []
                    "NewGroupId0000000000" 3%Z ex_store)).
    vm_compute. discriminate.
Defined.

(** C7. After the selection effect, a candidate id that names no group
    of the current list is replaced by the first group's id, or by no
    selection when the list is empty; whatever the candidate, the
    selection is either the id of a group in the current list or none
    (and none only for an empty list). The function is total. *)
Theorem resolveSelection_spec (groups : list Group) (sel : option string) :
  ((forall g, g ∈ groups -> sel <> Some (id g)) ->
   resolveSelection groups sel = id <$> head groups) /\
  (resolveSelection groups sel = None \/
   exists g, g ∈ groups /\ resolveSelection groups sel = Some (id g)) /\
  (resolveSelection groups sel = None -> groups = []).
Proof.
  assert (Hfb : id <$> head groups = None \/
                exists g, g ∈ groups /\ id <$> head groups = Some (id g)).
  { destruct groups as [|g gs]; [by left|right]. exists g.
    split; [apply list_elem_of_here|reflexivity]. }
  assert (Hfb0 : id <$> head groups = None -> groups = []).
  { by destruct groups. }
  unfold resolveSelection. split; [|split].
  - intros Hnot. destruct sel as [s|]; [|reflexivity].
    destruct (String.eqb s "") eqn:He; [reflexivity|]. simpl.
    destruct (existsb (fun g => String.eqb (id g) s) groups) eqn:Hex; [|reflexivity].
    apply existsb_exists in Hex as (g & Hg & Heq).
    apply String.eqb_eq in Heq. exfalso.
    apply (Hnot g); [by apply list_elem_of_In|by rewrite Heq].
  - destruct sel as [s|]; [|done].
    destruct (negb (String.eqb s "") && existsb (fun g => String.eqb (id g) s) groups)%bool
      eqn:Hc; [|done].
    apply andb_prop in Hc as [_ Hex].
    apply existsb_exists in Hex as (g & Hg & Heq).
    apply String.eqb_eq in Heq. right. exists g.
    split; [by apply list_elem_of_In|by rewrite Heq].
  - destruct sel as [s|]; [|done].
    destruct (negb (String.eqb s "") && existsb (fun g => String.eqb (id g) s) groups)%bool;
      [discriminate|done].
Qed.

Lemma resolveSelection_spec_witness :
  resolveSelection [ex_group; ex_solo] (Some "deleted-group-id") = Some (id ex_group) /\
  (resolveSelection [] (Some "deleted-group-id") = None \/
   exists g, g ∈ [] /\ resolveSelection [] (Some "deleted-group-id") = Some (id g)).
Proof.
  split.
  - apply (proj1 (resolveSelection_spec [ex_group; ex_solo] (Some "deleted-group-id"))).
    intros g Hg. apply list_elem_of_In in Hg. simpl in Hg.
    destruct Hg as [<- | [<- | []]]; vm_compute; discriminate.
  - apply (proj1 (proj2 (resolveSelection_spec [] (Some "deleted-group-id")))).
Defined.

(** C8. [loadGroupFields] calls [getDoc] only when the trimmed code has
    at least 20 characters, and then once, with the trimmed code; the
    fields it yields are the document's [customFields] when the document
    exists, and the empty schema when it does not exist, has no custom
    fields, or the read is rejected. It is a total function: nothing
    escapes it. *)
Theorem loadGroupFields_spec (joinCode : string) (getDoc : string -> Lookup) :
  let '(lookups, fields, _) := loadGroupFields joinCode getDoc in
  (String.length (trim joinCode) < 20 -> lookups = [] /\ fields = []) /\
  (20 <= String.length (trim joinCode) ->
   lookups = [trim joinCode] /\
   fields = match getDoc (trim joinCode) with
            | LFound d => default [] (customFields d)
            | LMissing | LError => []
            end) /\
  ((getDoc (trim joinCode) = LMissing \/ getDoc (trim joinCode) = LError \/
    exists d, getDoc (trim joinCode) = LFound d /\
              (customFields d = None \/ customFields d = Some [])) ->
   fields = []).
Proof.
  unfold loadGroupFields. cbv zeta.
  destruct (String.eqb (trim joinCode) "" || Nat.ltb (String.length (trim joinCode)) 20)%bool
    eqn:Hshort.
  - split; [|split]; [done| |done].
    intros Hlong. exfalso.
    apply Bool.orb_true_iff in Hshort as [He|Hl].
    + apply String.eqb_eq in He. rewrite He in Hlong. simpl in Hlong. lia.
    + apply Nat.ltb_lt in Hl. lia.
  - apply Bool.orb_false_iff in Hshort as [_ Hl]. apply Nat.ltb_ge in Hl.
    destruct (getDoc (trim joinCode)) as [d| |] eqn:Hget;
      (split; [intros; lia|split; [done|]]).
    + intros [H|[H|(d' & H & Hf)]]; [discriminate|discriminate|].
      injection H as <-. by destruct Hf as [-> | ->].
    + done.
    + done.
Qed.

(** C9. A successful draw is one [updateDoc] on the group's document
    that sets [assignments] to the freshly built map, whatever map was
    there before, and [drawRunAt] to the store's time; every other field
    of the document and every other document are unchanged. *)
Theorem runDraw_frame (u : User) (group d : Group) (pick : nat -> nat) (now : Z)
    (st : Store) :
  uid u = ownerId group ->
  2 <= length (memberIds group) ->
  st !! id group = Some d ->
  exists d' : Group,
    handleRunDraw (Some u) group pick now st
    = (Done (Some "Draw completed! Everyone now has someone to surprise."),
       <[id group := d']> st) /\
    assignments d' = Some (draw_assignments group pick) /\
    drawRunAt d' = Some now /\
    id d' = id d /\ name d' = name d /\ description d' = description d /\
    ownerId d' = ownerId d /\ ownerName d' = ownerName d /\
    ownerPhotoURL d' = ownerPhotoURL d /\ memberIds d' = memberIds d /\
    members d' = members d /\ customFields d' = customFields d /\
    memberResponses d' = memberResponses d /\ createdAt d' = createdAt d.
Proof.
  intros Hown Hlen Hst.
  exists (set_draw (draw_assignments group pick) now d).
  split; [|repeat split].
  unfold handleRunDraw. rewrite Hown, String.eqb_refl. simpl.
  replace (Nat.ltb (length (memberIds group)) 2) with false
    by (symmetry; apply Nat.ltb_ge; lia).
  unfold updateDoc. rewrite Hst. reflexivity.
Qed.

Lemma runDraw_frame_witness :
  exists d' : Group,
    handleRunDraw (Some ex_owner) ex_group ex_pick 7%Z {[ id ex_group := ex_drawn ]}
    = (Done (Some "Draw completed! Everyone now has someone to surprise."),
       <[id ex_group := d']> {[ id ex_group := ex_drawn ]}) /\
    assignments d' = Some (draw_assignments ex_group ex_pick) /\
    drawRunAt d' = Some 7%Z /\
    id d' = id ex_drawn /\ name d' = name ex_drawn /\
    description d' = description ex_drawn /\
    ownerId d' = ownerId ex_drawn /\ ownerName d' = ownerName ex_drawn /\
    ownerPhotoURL d' = ownerPhotoURL ex_drawn /\ memberIds d' = memberIds ex_drawn /\
    members d' = members ex_drawn /\ customFields d' = customFields ex_drawn /\
    memberResponses d' = memberResponses ex_drawn /\ createdAt d' = createdAt ex_drawn.
Proof.
  apply (runDraw_frame ex_owner ex_group ex_drawn ex_pick 7%Z
           {[ id ex_group := ex_drawn ]}).
  - reflexivity.
  - simpl. lia.
  - reflexivity.
Defined.

Lemma draw_loop_values (s : list string) (mem : gmap string MemberProfile)
    (k : nat) (g : string) (a : Assignment) :
  draw_loop s mem k !! g = Some a -> exists r, a = assignment_for mem r.
Proof.
  induction k as [|k IH]; cbn [draw_loop].
  - by rewrite lookup_empty.
  - rewrite lookup_insert. case_decide.
    + intros Ha. injection Ha as <-. by eexists.
    + exact IH.
Qed.

(** C10. The owner's draw on an existing document with at least two
    member ids succeeds whatever [members] holds; a recipient without a
    profile in [members] gets the record with name "Mystery Santa" and no
    photo. *)
Theorem runDraw_missing_profile (u : User) (group d : Group) (pick : nat -> nat)
    (now : Z) (st : Store) :
  uid u = ownerId group ->
  2 <= length (memberIds group) ->
  st !! id group = Some d ->
  handleRunDraw (Some u) group pick now st
  = (Done (Some "Draw completed! Everyone now has someone to surprise."),
     <[id group := set_draw (draw_assignments group pick) now d]> st) /\
  (forall g a, draw_assignments group pick !! g = Some a ->
     members group !! recipientId a = None ->
     recipientName a = "Mystery Santa" /\ recipientPhotoURL a = None).
Proof.
  intros Hown Hlen Hst. split.
  - unfold handleRunDraw. rewrite Hown, String.eqb_refl. simpl.
    replace (Nat.ltb (length (memberIds group)) 2) with false
      by (symmetry; apply Nat.ltb_ge; lia).
    unfold updateDoc. rewrite Hst. reflexivity.
  - intros g a Ha Hnone.
    apply draw_loop_values in Ha as [r ->].
    unfold assignment_for in *. simpl in *. by rewrite Hnone.
Qed.

Lemma runDraw_missing_profile_witness :
  handleRunDraw (Some ex_owner) ex_group ex_pick 7%Z ex_store
  = (Done (Some "Draw completed! Everyone now has someone to surprise."),
     <[id ex_group := set_draw (draw_assignments ex_group ex_pick) 7%Z ex_group]> ex_store) /\
  (forall g a, draw_assignments ex_group ex_pick !! g = Some a ->
     members ex_group !! recipientId a = None ->
     recipientName a = "Mystery Santa" /\ recipientPhotoURL a = None).
Proof.
  apply (runDraw_missing_profile ex_owner ex_group ex_group ex_pick 7%Z ex_store).
  - reflexivity.
  - simpl. lia.
  - reflexivity.
Defined.

(** * Further properties of App.tsx *)

Lemma str_or_nonempty (o : option string) (d : string) :
  d <> "" -> str_or o d <> "".
Proof.
  intros Hd. unfold str_or. destruct o as [s|]; [|done].
  destruct (String.eqb s "") eqn:Hs; [done|].
  by apply String.eqb_neq.
Qed.

(** The name shown for a user (owner name, member profile) is never
    empty: it is the first non-empty one of display name, e-mail and
    phone number, and "Anonymous gifter" when all are missing or empty. *)
Theorem getDisplayName_nonempty (u : User) : getDisplayName u <> "".
Proof.
  unfold getDisplayName. repeat apply str_or_nonempty. discriminate.
Qed.

Lemma trim_end_empty (s : string) : trim_end s = "" <-> all_space s = true.
Proof.
  induction s as [|c s IH]; simpl; [done|].
  destruct (String.eqb (trim_end s) "" && is_js_space c)%bool eqn:Hc.
  - apply andb_prop in Hc as [He Hsp]. apply String.eqb_eq in He.
    rewrite Hsp. simpl. split; [intros _; by apply IH|done].
  - split; [discriminate|].
    intros Hall. apply andb_prop in Hall as [Hsp Hs].
    apply IH in Hs. rewrite Hs, Hsp in Hc. discriminate.
Qed.

Lemma trim_start_all_space (s : string) :
  all_space (trim_start s) = all_space s.
Proof.
  induction s as [|c s IH]; simpl; [done|].
  destruct (is_js_space c) eqn:Hc; simpl; [done|]. by rewrite Hc.
Qed.

Lemma trim_empty (s : string) : trim s = "" <-> all_space s = true.
Proof. unfold trim. by rewrite trim_end_empty, trim_start_all_space. Qed.

(** A signed-in user's create request is refused with the name message
    exactly when the name consists of white space only (or is empty);
    any other name creates the group. *)
Theorem create_rejects_iff_blank (u : User)
    (newGroupName newGroupDescription : string) (fields : list CustomField)
    (newId : string) (now : Z) (st : Store) :
  handleCreateGroup (Some u) newGroupName newGroupDescription fields newId now st
  = (Failed "Give your group a name first.", None, st)
  <-> all_space newGroupName = true.
Proof.
  rewrite <- trim_empty. unfold handleCreateGroup. cbv zeta.
  destruct (String.eqb (trim newGroupName) "") eqn:He.
  - apply String.eqb_eq in He. by split.
  - apply String.eqb_neq in He. split; [discriminate|done].
Qed.

Lemma arrayUnion_new (xs : list string) (y : string) :
  y ∉ xs -> arrayUnion xs [y] = app xs [y].
Proof. intros Hy. unfold arrayUnion. simpl. by rewrite bool_decide_eq_false_2. Qed.

Lemma join_step (u : User) (joinCode : string) (resp : MemberResponse)
    (st : Store) (g : Group) :
  trim joinCode <> "" ->
  st !! trim joinCode = Some g ->
  uid u ∉ memberIds g ->
  missingFields resp (default [] (customFields g)) = [] ->
  handleJoinGroup (Some u) joinCode resp st
  = (Done (Some "Welcome aboard! You have joined the group."),
     <[trim joinCode := apply_join {| jw_doc := trim joinCode; jw_uid := uid u;
                                      jw_profile := {| displayName := getDisplayName u;
                                                       photoURL := user_photoURL u |};
                                      jw_responses := resp |} g]> st).
Proof.
  intros Hcode Hst Hnot Hmiss.
  unfold handleJoinGroup, join_check. cbv zeta.
  rewrite (proj2 (String.eqb_neq _ _) Hcode), Hst.
  rewrite bool_decide_eq_false_2 by done.
  rewrite Hmiss. simpl. rewrite Bool.andb_false_r.
  unfold join_commit, updateDoc. simpl. rewrite Hst. reflexivity.
Qed.

(** A join whose trimmed code names an existing group, by a user not
    yet in it, with every custom field answered (non-blank after trim),
    succeeds with one write to that document: the user id is appended to
    [memberIds], the profile is stored under [members], the responses
    under [memberResponses]; every other field and every other document
    is unchanged. *)
Theorem join_success (u : User) (joinCode : string) (resp : MemberResponse)
    (st : Store) (g : Group) :
  trim joinCode <> "" ->
  st !! trim joinCode = Some g ->
  uid u ∉ memberIds g ->
  missingFields resp (default [] (customFields g)) = [] ->
  exists g' : Group,
    handleJoinGroup (Some u) joinCode resp st
    = (Done (Some "Welcome aboard! You have joined the group."),
       <[trim joinCode := g']> st) /\
    memberIds g' = app (memberIds g) [uid u] /\
    members g' = <[uid u := {| displayName := getDisplayName u;
                               photoURL := user_photoURL u |}]> (members g) /\
    memberResponses g' = <[uid u := resp]> (memberResponses g) /\
    id g' = id g /\ name g' = name g /\ description g' = description g /\
    ownerId g' = ownerId g /\ ownerName g' = ownerName g /\
    ownerPhotoURL g' = ownerPhotoURL g /\ assignments g' = assignments g /\
    customFields g' = customFields g /\ createdAt g' = createdAt g /\
    drawRunAt g' = drawRunAt g.
Proof.
  intros Hcode Hst Hnot Hmiss.
  exists (apply_join {| jw_doc := trim joinCode; jw_uid := uid u;
                        jw_profile := {| displayName := getDisplayName u;
                                         photoURL := user_photoURL u |};
                        jw_responses := resp |} g).
  split; [by apply join_step|split; [|repeat split]].
  simpl. by apply arrayUnion_new.
Qed.

Lemma missingFields_nil (resp : MemberResponse) (fields : list CustomField)
    (f : CustomField) :
  missingFields resp fields = [] -> f ∈ fields ->
  exists v, resp !! field_id f = Some v /\ v <> "" /\ trim v <> "".
Proof.
  intros Hnil Hf.
  destruct (resp !! field_id f) as [v|] eqn:Hv.
  - exists v. split; [done|].
    assert (Ht : trim v <> "").
    { intros Ht. assert (Hm : f ∈ missingFields resp fields)
        by (apply missingFields_spec; eauto).
      rewrite Hnil in Hm. by apply not_elem_of_nil in Hm. }
    split; [|done]. intros ->. by apply Ht.
  - assert (Hm : f ∈ missingFields resp fields)
      by (apply missingFields_spec; auto).
    rewrite Hnil in Hm. by apply not_elem_of_nil in Hm.
Qed.

Lemma missingFields_all (resp : MemberResponse) (fields : list CustomField) :
  (forall f, f ∈ fields -> response_missing resp f = true) ->
  missingFields resp fields = fields.
Proof.
  unfold missingFields. induction fields as [|f fs IH]; intros Hall; [done|].
  rewrite filter_cons_True by (apply Hall, list_elem_of_here).
  f_equal. apply IH. intros f' Hf'. apply Hall. by apply list_elem_of_further.
Qed.

Lemma omap_shown (r : MemberResponse) (l : list CustomField) :
  (forall f, f ∈ l -> exists v, r !! field_id f = Some v /\ v <> "") ->
  omap (fun f => match r !! field_id f with
                 | Some v => if String.eqb v "" then None else Some (label f, v)
                 | None => None
                 end) l
  = map (fun f => (label f, default "" (r !! field_id f))) l.
Proof.
  induction l as [|f l IH]; intros Hall; [done|]. simpl.
  destruct (Hall f (list_elem_of_here _ _)) as (v & Hv & Hne).
  rewrite Hv, (proj2 (String.eqb_neq _ _) Hne). simpl. f_equal.
  apply IH. intros f' Hf'. apply Hall. by apply list_elem_of_further.
Qed.

(** After a successful join, the new member's entry in the roster (and
    the match card of whoever draws them) shows one answer per custom
    field of the group, in field order, each of them non-blank. *)
Theorem join_answers_shown (u : User) (joinCode : string) (resp : MemberResponse)
    (st : Store) (g : Group) :
  trim joinCode <> "" ->
  st !! trim joinCode = Some g ->
  uid u ∉ memberIds g ->
  missingFields resp (default [] (customFields g)) = [] ->
  exists g' : Group,
    handleJoinGroup (Some u) joinCode resp st
    = (Done (Some "Welcome aboard! You have joined the group."),
       <[trim joinCode := g']> st) /\
    shown_responses g' (uid u)
    = map (fun f => (label f, default "" (resp !! field_id f)))
          (default [] (customFields g)) /\
    (forall f, f ∈ default [] (customFields g) ->
       exists v, resp !! field_id f = Some v /\ trim v <> "").
Proof.
  intros Hcode Hst Hnot Hmiss.
  eexists. split; [by apply join_step|split].
  - unfold shown_responses. cbn [apply_join customFields memberResponses jw_uid jw_responses].
    rewrite lookup_insert_eq.
    assert (Hall : forall f, f ∈ default [] (customFields g) ->
              exists v, resp !! field_id f = Some v /\ v <> "" /\ trim v <> "")
      by (intros f Hf; by apply (missingFields_nil resp _ f Hmiss)).
    destruct (default [] (customFields g)) as [|f0 fs]; [done|].
    rewrite omap_shown; [reflexivity|].
    intros f Hf. destruct (Hall f Hf) as (v & Hv & Hne & _). eauto.
  - intros f Hf. destruct (missingFields_nil resp _ f Hmiss Hf) as (v & Hv & _ & Ht).
    eauto.
Qed.

Lemma initial_responses_go_notin (l : list CustomField) (acc : MemberResponse) (k : string) :
  k ∉ map field_id l ->
  fold_left (fun acc f => <[field_id f := ""]> acc) l acc !! k = acc !! k.
Proof.
  revert acc. induction l as [|f l IH]; intros acc Hk; [done|]. simpl.
  rewrite IH.
  - apply lookup_insert_ne. intros <-. apply Hk. apply list_elem_of_here.
  - intros Hin. apply Hk. by apply list_elem_of_further.
Qed.

Lemma initial_responses_go_in (l : list CustomField) (acc : MemberResponse) (k : string) :
  k ∈ map field_id l ->
  fold_left (fun acc f => <[field_id f := ""]> acc) l acc !! k = Some "".
Proof.
  revert acc. induction l as [|f l IH]; intros acc Hk;
    [by apply not_elem_of_nil in Hk|]. simpl.
  destruct (decide (k ∈ map field_id l)) as [Hin|Hout]; [by apply IH|].
  rewrite initial_responses_go_notin by done.
  simpl in Hk. apply elem_of_cons in Hk as [->|Hk]; [|done].
  apply lookup_insert_eq.
Qed.

(** Submitting the join form as [loadGroupFields] prepared it (every
    answer still the initial empty string) for a group with custom
    fields fails, listing every field label, and writes nothing. *)
Theorem join_untouched_form_fails (u : User) (joinCode : string) (st : Store)
    (g : Group) :
  20 <= String.length (trim joinCode) ->
  st !! trim joinCode = Some g ->
  uid u ∉ memberIds g ->
  default [] (customFields g) <> [] ->
  let '(_, fields, joinResponses) := loadGroupFields joinCode (store_getDoc st) in
  fields = default [] (customFields g) /\
  handleJoinGroup (Some u) joinCode joinResponses st
  = (Failed ("Please fill out all required fields: "
             ++ join ", " (map label (default [] (customFields g)))), st).
Proof.
  intros Hlen Hst Hnot Hne.
  assert (Hcode : trim joinCode <> "") by (intros He; rewrite He in Hlen; simpl in Hlen; lia).
  unfold loadGroupFields. cbv zeta.
  rewrite (proj2 (String.eqb_neq _ _) Hcode).
  replace (Nat.ltb (String.length (trim joinCode)) 20) with false
    by (symmetry; apply Nat.ltb_ge; lia). simpl.
  unfold store_getDoc. rewrite Hst. split; [done|].
  assert (Hmiss : missingFields (initial_responses (default [] (customFields g)))
                    (default [] (customFields g)) = default [] (customFields g)).
  { apply missingFields_all. intros f Hf. unfold response_missing, initial_responses.
    rewrite initial_responses_go_in; [reflexivity|].
    apply list_elem_of_In, in_map, list_elem_of_In, Hf. }
  unfold handleJoinGroup, join_check. cbv zeta.
  rewrite (proj2 (String.eqb_neq _ _) Hcode), Hst.
  rewrite bool_decide_eq_false_2 by done. rewrite Hmiss.
  destruct (default [] (customFields g)) as [|f0 fs]; [done|]. reflexivity.
Qed.

Lemma arrayUnion_keeps (xs ys : list string) (x : string) :
  x ∈ xs -> x ∈ arrayUnion xs ys.
Proof.
  unfold arrayUnion. revert xs. induction ys as [|y ys IH]; intros xs Hx; simpl; [done|].
  apply IH. case_bool_decide; [done|]. apply elem_of_app. by left.
Qed.

Lemma arrayUnion_adds (xs : list string) (y : string) : y ∈ arrayUnion xs [y].
Proof.
  unfold arrayUnion. simpl. case_bool_decide; [done|].
  apply elem_of_app. right. apply list_elem_of_here.
Qed.

(** Two join writes to the same group that land one after the other
    (each prepared from a snapshot taken before either landed) are both
    kept: both user ids end up in [memberIds], the second profile is
    stored, and so is the first when the two users differ. *)
Theorem concurrent_joins_both_kept (w1 w2 : JoinWrite) (st st1 st2 : Store) :
  jw_doc w1 = jw_doc w2 ->
  join_commit w1 st = Some st1 ->
  join_commit w2 st1 = Some st2 ->
  exists d, st2 !! jw_doc w1 = Some d /\
    jw_uid w1 ∈ memberIds d /\ jw_uid w2 ∈ memberIds d /\
    members d !! jw_uid w2 = Some (jw_profile w2) /\
    (jw_uid w1 <> jw_uid w2 -> members d !! jw_uid w1 = Some (jw_profile w1)).
Proof.
  intros Hdoc H1 H2. unfold join_commit, updateDoc in H1, H2.
  destruct (st !! jw_doc w1) as [d0|] eqn:Hd0; [|discriminate].
  injection H1 as <-. rewrite <- Hdoc, lookup_insert_eq in H2.
  injection H2 as <-.
  eexists. rewrite lookup_insert_eq. split; [reflexivity|].
  cbn [apply_join memberIds members]. split; [|split; [|split]].
  - apply arrayUnion_keeps, arrayUnion_adds.
  - apply arrayUnion_adds.
  - apply lookup_insert_eq.
  - intros Hne. rewrite lookup_insert_ne by congruence. apply lookup_insert_eq.
Qed.

(** Once the owner has confirmed the deletion, the document is gone and
    every other document is untouched; a join write still in flight for
    that group is then rejected and does not bring the document back. *)
Theorem delete_then_join_write (u : User) (group : Group) (st : Store)
    (w : JoinWrite) :
  uid u = ownerId group ->
  jw_doc w = id group ->
  let st' := (handleDeleteGroup (Some u) group true st).2 in
  st' !! id group = None /\
  (forall k, k <> id group -> st' !! k = st !! k) /\
  join_commit w st' = None /\
  exec_op (OpJoinCommit w) st' = st'.
Proof.
  intros Hown Hdoc. unfold handleDeleteGroup. rewrite Hown, String.eqb_refl. simpl.
  unfold deleteDoc. split; [apply lookup_delete_eq|split].
  - intros k Hk. by apply lookup_delete_ne.
  - assert (Hc : join_commit w (delete (id group) st) = None).
    { unfold join_commit, updateDoc. rewrite Hdoc, lookup_delete_eq. reflexivity. }
    split; [done|]. simpl. by rewrite Hc.
Qed.

Lemma draw_loop_notin (s : list string) (mem : gmap string MemberProfile)
    (k : nat) (x : string) :
  k <= length s -> x ∉ s -> draw_loop s mem k !! x = None.
Proof.
  induction k as [|k IH]; intros Hk Hx; cbn [draw_loop]; [apply lookup_empty|].
  rewrite lookup_insert_ne; [apply IH; [lia|done]|].
  intros <-. apply Hx. apply list_elem_of_lookup_total_2. lia.
Qed.

Lemma draw_loop_recipient_in (s : list string) (mem : gmap string MemberProfile)
    (k : nat) (g : string) (a : Assignment) :
  0 < length s -> draw_loop s mem k !! g = Some a -> recipientId a ∈ s.
Proof.
  intros Hlen. induction k as [|k IH]; cbn [draw_loop]; [by rewrite lookup_empty|].
  rewrite lookup_insert. case_decide; [|exact IH].
  intros Ha. injection Ha as <-. cbn [assignment_for recipientId].
  apply list_elem_of_lookup_total_2. apply Nat.mod_upper_bound. lia.
Qed.

Lemma runDraw_commit (u : User) (group d : Group) (pick : nat -> nat) (now : Z)
    (st : Store) :
  uid u = ownerId group ->
  2 <= length (memberIds group) ->
  st !! id group = Some d ->
  handleRunDraw (Some u) group pick now st
  = (Done (Some "Draw completed! Everyone now has someone to surprise."),
     <[id group := set_draw (draw_assignments group pick) now d]> st).
Proof.
  intros Hown Hlen Hst. unfold handleRunDraw. rewrite Hown, String.eqb_refl. simpl.
  replace (Nat.ltb (length (memberIds group)) 2) with false
    by (symmetry; apply Nat.ltb_ge; lia).
  unfold updateDoc. rewrite Hst. reflexivity.
Qed.

(** The draw is computed from the owner's loaded copy of the group, not
    from the stored document: a user who is a member in the store but not
    in that copy (they joined after it was loaded) stays a member, yet
    gets no assignment and is nobody's recipient. *)
Theorem draw_skips_member_missing_from_view (u : User) (group d : Group)
    (pick : nat -> nat) (now : Z) (st : Store) (x : string) :
  valid_pick pick ->
  uid u = ownerId group ->
  2 <= length (memberIds group) ->
  st !! id group = Some d ->
  x ∈ memberIds d ->
  x ∉ memberIds group ->
  exists d' asg,
    handleRunDraw (Some u) group pick now st
    = (Done (Some "Draw completed! Everyone now has someone to surprise."),
       <[id group := d']> st) /\
    x ∈ memberIds d' /\ assignments d' = Some asg /\
    asg !! x = None /\
    (forall g a, asg !! g = Some a -> recipientId a <> x).
Proof.
  intros Hpick Hown Hlen Hst Hx Hnx.
  exists (set_draw (draw_assignments group pick) now d),
    (draw_assignments group pick).
  split; [by apply runDraw_commit|]. cbn [set_draw memberIds assignments].
  pose proof (shuffle_perm pick (memberIds group) Hpick) as Hp.
  assert (Hns : x ∉ shuffle pick (memberIds group)) by (by rewrite Hp).
  rewrite draw_assignments_unfold.
  split; [done|split; [done|split]].
  - by apply draw_loop_notin.
  - intros g a Ha Hr. apply Hns. rewrite <- Hr.
    eapply draw_loop_recipient_in; [|exact Ha].
    rewrite (Permutation_length Hp). lia.
Qed.

(** A group created without custom fields can be joined straight away
    by another signed-in user with its id as the join code, whatever they
    answer: the group then has exactly two members, owner first, and is
    still owned by its creator. *)
Theorem create_then_join (owner guest : User) (nm desc newId : string) (now : Z)
    (resp : MemberResponse) (st : Store) :
  trim nm <> "" ->
  newId <> "" ->
  trim newId = newId ->
  uid guest <> uid owner ->
  let '(_, _, st1) := handleCreateGroup (Some owner) nm desc [] newId now st in
  exists g',
    handleJoinGroup (Some guest) newId resp st1
    = (Done (Some "Welcome aboard! You have joined the group."),
       <[newId := g']> st1) /\
    memberIds g' = [uid owner; uid guest] /\
    ownerId g' = uid owner /\
    members g' !! uid owner = Some {| displayName := getDisplayName owner;
                                      photoURL := user_photoURL owner |} /\
    members g' !! uid guest = Some {| displayName := getDisplayName guest;
                                      photoURL := user_photoURL guest |}.
Proof.
  intros Hnm Hid Htrim Hne. unfold handleCreateGroup.
  rewrite (proj2 (String.eqb_neq _ _) Hnm). unfold addDoc.
  exists (apply_join {| jw_doc := newId; jw_uid := uid guest;
                        jw_profile := {| displayName := getDisplayName guest;
                                         photoURL := user_photoURL guest |};
                        jw_responses := resp |}
            (new_group owner newId (trim nm) desc [] now)).
  split.
  - pose proof (join_step guest newId resp
                  (<[newId := new_group owner newId (trim nm) desc [] now]> st)
                  (new_group owner newId (trim nm) desc [] now)) as Hj.
    rewrite Htrim in Hj. apply Hj; [done| |simpl|reflexivity].
    + apply lookup_insert_eq.
    + rewrite list_elem_of_singleton. done.
  - cbn [apply_join new_group memberIds ownerId members jw_uid jw_profile].
    split; [|split; [done|split]].
    + unfold arrayUnion. simpl. rewrite bool_decide_eq_false_2; [reflexivity|].
      rewrite list_elem_of_singleton. done.
    + rewrite lookup_insert_ne by done. apply lookup_insert_eq.
    + apply lookup_insert_eq.
Qed.

Section SnapshotFacts.
Local Open Scope list_scope.

Local Abbreviation newer_first :=
  (fun a b : Group => (createdAt_millis b <= createdAt_millis a)%Z).

Lemma insert_by_createdAt_perm (g : Group) (l : list Group) :
  insert_by_createdAt g l ≡ₚ g :: l.
Proof.
  induction l as [|h l IH]; simpl; [done|].
  destruct (Z.leb _ _); [|done].
  rewrite IH. apply perm_swap.
Qed.

Lemma sort_go_perm (l acc : list Group) :
  fold_left (fun acc g => insert_by_createdAt g acc) l acc ≡ₚ l ++ acc.
Proof.
  revert acc. induction l as [|g l IH]; intros acc; simpl; [done|].
  rewrite IH, insert_by_createdAt_perm. symmetry. apply Permutation_middle.
Qed.

Lemma insert_by_createdAt_HdRel (h g : Group) (l : list Group) :
  newer_first h g -> HdRel newer_first h l ->
  HdRel newer_first h (insert_by_createdAt g l).
Proof.
  intros Hhg Hl. destruct l as [|h' l]; simpl; [by constructor|].
  destruct (Z.leb _ _); constructor; [by inversion Hl|done].
Qed.

Lemma insert_by_createdAt_sorted (g : Group) (l : list Group) :
  Sorted newer_first l -> Sorted newer_first (insert_by_createdAt g l).
Proof.
  induction l as [|h l IH]; intros Hs; simpl; [by repeat constructor|].
  destruct (Z.leb _ _) eqn:Hle.
  - apply Z.leb_le in Hle. inversion Hs as [|? ? Hs' Hhd]; subst.
    constructor; [by apply IH|]. by apply insert_by_createdAt_HdRel.
  - apply Z.leb_gt in Hle. constructor; [done|]. constructor. simpl. lia.
Qed.

Lemma sort_go_sorted (l acc : list Group) :
  Sorted newer_first acc ->
  Sorted newer_first (fold_left (fun acc g => insert_by_createdAt g acc) l acc).
Proof.
  revert acc. induction l as [|g l IH]; intros acc Hs; simpl; [done|].
  apply IH, insert_by_createdAt_sorted, Hs.
Qed.

Lemma snapshot_groups_perm (docs : list (string * Group)) :
  snapshot_groups docs ≡ₚ map (fun '(k, d) => group_of_doc k d) docs.
Proof. unfold snapshot_groups, sort_by_createdAt_desc. by rewrite sort_go_perm, app_nil_r. Qed.

Lemma snapshot_groups_sorted (docs : list (string * Group)) :
  Sorted newer_first (snapshot_groups docs).
Proof. apply sort_go_sorted. constructor. Qed.

Lemma query_docs_elem (userId : string) (st : Store) (k : string) (d : Group) :
  (k, d) ∈ query_docs userId st <-> st !! k = Some d /\ userId ∈ memberIds d.
Proof.
  unfold query_docs. rewrite list_elem_of_filter, elem_of_map_to_list. tauto.
Qed.

Lemma query_docs_ids_NoDup (userId : string) (st : Store) :
  List.NoDup (map fst (query_docs userId st)).
Proof.
  apply NoDup_ListNoDup. apply NoDup_ListNoDup.
  apply NoDup_map_NoDup_ForallPairs.
  - intros [k1 d1] [k2 d2] H1 H2 Heq. simpl in Heq. subst k2.
    apply list_elem_of_In, query_docs_elem in H1, H2.
    destruct H1 as [H1 _], H2 as [H2 _]. rewrite H1 in H2. by injection H2 as ->.
  - apply NoDup_ListNoDup. unfold query_docs.
    apply NoDup_filter, NoDup_map_to_list.
Qed.

End SnapshotFacts.

(** The list of groups shown to a signed-in user, built from any
    snapshot that returns the documents of the membership query in some
    order, has exactly one entry per group document whose [memberIds]
    contain the user, each carrying its document id, and is ordered from
    the most recently created group to the oldest. *)
Theorem snapshot_lists_own_groups_newest_first (userId : string) (st : Store)
    (docs : list (string * Group)) :
  docs ≡ₚ query_docs userId st ->
  let groups := snapshot_groups docs in
  (forall k, (exists g, g ∈ groups /\ id g = k) <->
             (exists d, st !! k = Some d /\ userId ∈ memberIds d)) /\
  List.NoDup (map id groups) /\
  Sorted (fun a b => (createdAt_millis b <= createdAt_millis a)%Z) groups.
Proof.
  intros Hdocs groups.
  assert (Hp : groups ≡ₚ map (fun '(k, d) => group_of_doc k d) (query_docs userId st)).
  { unfold groups. rewrite snapshot_groups_perm. by apply Permutation_map. }
  split; [|split].
  - intros k. split.
    + intros (g & Hg & <-). rewrite Hp in Hg.
      apply list_elem_of_In, in_map_iff in Hg as ([k d] & <- & Hin).
      apply list_elem_of_In, query_docs_elem in Hin. by exists d.
    + intros (d & Hd & Hu). exists (group_of_doc k d). split; [|done].
      rewrite Hp. apply list_elem_of_In, in_map_iff. exists (k, d).
      split; [done|]. by apply list_elem_of_In, query_docs_elem.
  - apply (Permutation_NoDup (Permutation_map id (Permutation_sym Hp))).
    rewrite map_map.
    replace (map (fun x => id (let '(k, d) := x in group_of_doc k d)) (query_docs userId st))
      with (map fst (query_docs userId st))
      by (apply map_ext; by intros [k d]).
    apply query_docs_ids_NoDup.
  - apply snapshot_groups_sorted.
Qed.

(** Deleting a group, once the owner confirms, removes it from the list
    of every user, whatever order their next snapshot returns; without
    the confirmation nothing is written. *)
Theorem delete_removes_from_all_lists (u : User) (group : Group) (st : Store) :
  uid u = ownerId group ->
  handleDeleteGroup (Some u) group false st = (Ignored, st) /\
  forall (viewer : string) (docs : list (string * Group)),
    docs ≡ₚ query_docs viewer (handleDeleteGroup (Some u) group true st).2 ->
    forall g, g ∈ snapshot_groups docs -> id g <> id group.
Proof.
  intros Hown. unfold handleDeleteGroup. rewrite Hown, String.eqb_refl. simpl.
  split; [reflexivity|].
  intros viewer docs Hdocs g Hg Hid.
  rewrite snapshot_groups_perm, Hdocs in Hg.
  apply list_elem_of_In, in_map_iff in Hg as ([k d] & <- & Hin).
  apply list_elem_of_In, query_docs_elem in Hin as [Hk _].
  simpl in Hid. subst k. unfold deleteDoc in Hk.
  by rewrite lookup_delete_eq in Hk.
Qed.

Lemma resolveSelection_cases (groups : list Group) (sel : option string) :
  (groups = [] -> resolveSelection groups sel = None) /\
  (groups <> [] -> exists g, g ∈ groups /\ resolveSelection groups sel = Some (id g)).
Proof.
  unfold resolveSelection. split.
  - intros ->. destruct sel as [s|]; [|done]. by rewrite Bool.andb_false_r.
  - intros Hne. destruct groups as [|g0 gs]; [done|].
    assert (Hfb : exists g, g ∈ g0 :: gs /\ id <$> head (g0 :: gs) = Some (id g))
      by (exists g0; split; [apply list_elem_of_here|done]).
    destruct sel as [s|]; [|done].
    destruct (negb (String.eqb s "") && existsb (fun g => String.eqb (id g) s) (g0 :: gs))%bool
      eqn:Hc; [|done].
    apply andb_prop in Hc as [_ Hc]. apply existsb_exists in Hc as (g & Hg & Hs).
    apply String.eqb_eq in Hs. exists g. split; [by apply list_elem_of_In|by rewrite Hs].
Qed.

(** Whatever group id is currently selected (none, an empty one, one of
    a group the user has left or deleted), once the selection effect has
    run the page shows a group of the list, and it shows none only when
    the list is empty. *)
Theorem selection_shows_listed_group (groups : list Group) (sel : option string) :
  (selectedGroup groups (resolveSelection groups sel) = None <-> groups = []) /\
  (forall g, selectedGroup groups (resolveSelection groups sel) = Some g ->
     g ∈ groups).
Proof.
  destruct (resolveSelection_cases groups sel) as [Hnil Hcons].
  split.
  - split.
    + intros Hnone. destruct groups as [|g0 gs]; [done|].
      destruct (Hcons ltac:(done)) as (g & Hg & Hr). rewrite Hr in Hnone.
      unfold selectedGroup in Hnone. apply list_elem_of_In in Hg.
      pose proof (find_none _ _ Hnone g Hg) as Hf. simpl in Hf.
      by rewrite String.eqb_refl in Hf.
    + intros ->. by rewrite Hnil.
  - intros g Hsel. destruct (resolveSelection groups sel) as [s|]; [|done].
    simpl in Hsel. apply find_some in Hsel as [Hg _]. by apply list_elem_of_In.
Qed.

Section FieldEditorFacts.
Local Open Scope list_scope.

Lemma insert_keeps_ids (l : list CustomField) (i : nat) (x : CustomField) :
  field_id x = field_id (l !!! i) -> map field_id (<[i := x]> l) = map field_id l.
Proof.
  revert i. induction l as [|f l IH]; intros i Hx; [done|].
  destruct i as [|i]; simpl in *; [by rewrite Hx|]. by rewrite IH.
Qed.

Lemma set_field_label_ids (fields : list CustomField) (index : nat) (value : string) :
  map field_id (set_field_label fields index value) = map field_id fields.
Proof. by apply insert_keeps_ids. Qed.

Lemma set_field_placeholder_ids (fields : list CustomField) (index : nat)
    (value : string) :
  map field_id (set_field_placeholder fields index value) = map field_id fields.
Proof. by apply insert_keeps_ids. Qed.

Lemma remove_field_go (l : list CustomField) (n i : nat) :
  map snd (filter (fun p => p.1 <> i) (zip (seq n (length l)) l))
  = if Nat.ltb i n then l else take (i - n) l ++ drop (S (i - n)) l.
Proof.
  revert n. induction l as [|x l IH]; intros n.
  - simpl. destruct (Nat.ltb i n); [done|]. by destruct (i - n).
  - cbn [length seq zip zip_with]. rewrite filter_cons. case_decide as Hne.
    + cbn [map snd fst] in *. rewrite IH.
      destruct (Nat.ltb_spec i n), (Nat.ltb_spec i (S n)); try lia; [done|].
      replace (i - n) with (S (i - S n)) by lia. done.
    + simpl in Hne. subst i. rewrite IH.
      rewrite (proj2 (Nat.ltb_lt n (S n))) by lia.
      rewrite (proj2 (Nat.ltb_ge n n)) by lia. by rewrite Nat.sub_diag.
Qed.

Lemma remove_field_eq (fields : list CustomField) (index : nat) :
  remove_field fields index = take index fields ++ drop (S index) fields.
Proof. unfold remove_field. rewrite remove_field_go. by rewrite Nat.sub_0_r. Qed.

Lemma sublist_map {A B} (f : A -> B) (l1 l2 : list A) :
  l1 `sublist_of` l2 -> map f l1 `sublist_of` map f l2.
Proof. induction 1; simpl; by constructor. Qed.

Lemma remove_field_sublist (fields : list CustomField) (index : nat) :
  remove_field fields index `sublist_of` fields.
Proof.
  rewrite remove_field_eq. rewrite <- (take_drop index fields) at 3.
  apply sublist_app; [done|].
  replace (S index) with (index + 1) by lia. rewrite <- drop_drop.
  apply sublist_drop.
Qed.

End FieldEditorFacts.

(** Removing the field at a position leaves the other fields, in their
    order; a position past the end removes nothing. *)
Theorem remove_field_spec (fields : list CustomField) (index : nat) :
  remove_field fields index = app (take index fields) (drop (S index) fields) /\
  length (remove_field fields index)
  = if Nat.ltb index (length fields) then length fields - 1 else length fields.
Proof.
  pose proof (remove_field_eq fields index) as Heq.
  split; [done|]. rewrite Heq, length_app, length_take, length_drop.
  destruct (Nat.ltb_spec index (length fields)); lia.
Qed.

(** The field editor keeps the ids of the fields distinct (they are the
    React keys of the rows and the keys of the members' answers): adding
    a field with a fresh id, editing a label or a placeholder, and
    removing a field all keep them distinct; an edit changes only the
    field at its position. *)
Theorem field_editor_keeps_ids (fields : list CustomField) (index : nat)
    (value newFieldId : string) :
  NoDup (map field_id fields) ->
  (newFieldId ∉ map field_id fields -> NoDup (map field_id (add_field fields newFieldId))) /\
  NoDup (map field_id (set_field_label fields index value)) /\
  NoDup (map field_id (set_field_placeholder fields index value)) /\
  NoDup (map field_id (remove_field fields index)) /\
  (forall j, j <> index ->
     set_field_label fields index value !! j = fields !! j /\
     set_field_placeholder fields index value !! j = fields !! j) /\
  (index < length fields ->
     label (set_field_label fields index value !!! index) = value /\
     placeholder (set_field_placeholder fields index value !!! index) = Some value).
Proof.
  intros Hnd. split; [|split; [|split; [|split; [|split]]]].
  - intros Hfresh. unfold add_field. rewrite map_app. simpl.
    apply NoDup_app. split; [done|split].
    + intros x Hx Hin. apply list_elem_of_singleton in Hin. by subst.
    + apply NoDup_singleton.
  - by rewrite set_field_label_ids.
  - by rewrite set_field_placeholder_ids.
  - apply (sublist_NoDup _ _ Hnd). apply sublist_map, remove_field_sublist.
  - intros j Hj. unfold set_field_label, set_field_placeholder.
    rewrite !list_lookup_insert_ne by congruence. done.
  - intros Hlt. unfold set_field_label, set_field_placeholder.
    rewrite !list_lookup_total_insert_eq by done. done.
Qed.

(** With any random source ([Math.floor(Math.random() * (i + 1))] never
    exceeds [i]), [shuffle] returns a rearrangement of its input: the
    same members, each as many times as before. *)
Theorem shuffle_is_permutation (pick : nat -> nat) (items : list string) :
  valid_pick pick ->
  shuffle pick items ≡ₚ items /\
  length (shuffle pick items) = length items /\
  (forall x, x ∈ shuffle pick items <-> x ∈ items).
Proof.
  intros Hpick. pose proof (shuffle_perm pick items Hpick) as Hp.
  split; [done|split].
  - by apply Permutation_length.
  - intros x. by rewrite Hp.
Qed.

(** A draw started from a group the owner has just deleted (its page
    still showing the old copy) is rejected by the store: the owner sees
    the generic failure and the document is not recreated. *)
Theorem draw_after_delete_fails (u : User) (group : Group) (pick : nat -> nat)
    (now : Z) (st : Store) :
  uid u = ownerId group ->
  2 <= length (memberIds group) ->
  let st' := (handleDeleteGroup (Some u) group true st).2 in
  handleRunDraw (Some u) group pick now st'
  = (Failed "Something went wrong running the draw. Please try again.", st') /\
  st' !! id group = None.
Proof.
  intros Hown Hlen. unfold handleDeleteGroup. rewrite Hown, String.eqb_refl. simpl.
  unfold deleteDoc. split; [|apply lookup_delete_eq].
  unfold handleRunDraw. rewrite Hown, String.eqb_refl. simpl.
  replace (Nat.ltb (length (memberIds group)) 2) with false
    by (symmetry; apply Nat.ltb_ge; lia).
  unfold updateDoc. by rewrite lookup_delete_eq.
Qed.

(** A group created with custom fields and a store id of at least 20
    characters (Firestore's generated ids have 20) can be looked up with
    that id as join code: the join form then shows exactly the fields
    the owner authored, each with an empty answer. *)
Theorem create_then_load_fields (owner : User) (nm desc newId : string)
    (fields : list CustomField) (now : Z) (st : Store) :
  trim nm <> "" ->
  trim newId = newId ->
  20 <= String.length newId ->
  fields <> [] ->
  let '(_, _, st1) := handleCreateGroup (Some owner) nm desc fields newId now st in
  loadGroupFields newId (store_getDoc st1) = ([newId], fields, initial_responses fields) /\
  forall f, f ∈ fields -> initial_responses fields !! field_id f = Some "".
Proof.
  intros Hnm Htrim Hlen Hne. unfold handleCreateGroup.
  rewrite (proj2 (String.eqb_neq _ _) Hnm). unfold addDoc.
  split.
  - unfold loadGroupFields. cbv zeta. rewrite Htrim.
    assert (Hid : newId <> "") by (intros ->; simpl in Hlen; lia).
    rewrite (proj2 (String.eqb_neq _ _) Hid).
    replace (Nat.ltb (String.length newId) 20) with false
      by (symmetry; apply Nat.ltb_ge; lia). simpl.
    unfold store_getDoc. rewrite lookup_insert_eq. cbn [new_group customFields].
    destruct fields as [|f0 fs]; [done|]. reflexivity.
  - intros f Hf. unfold initial_responses. apply initial_responses_go_in.
    apply list_elem_of_In, in_map, list_elem_of_In, Hf.
Qed.

(** ** Witnesses of the further properties *)

Lemma join_success_witness :
  exists g' : Group,
    handleJoinGroup (Some ex_guest) " AbCdEfGhIjKlMnOpQrSt " ex_full_responses ex_store
    = (Done (Some "Welcome aboard! You have joined the group."),
       <[trim " AbCdEfGhIjKlMnOpQrSt " := g']> ex_store) /\
    memberIds g' = app (memberIds ex_group) [uid ex_guest] /\
    members g' = <[uid ex_guest := {| displayName := getDisplayName ex_guest;
                                      photoURL := user_photoURL ex_guest |}]>
                   (members ex_group) /\
    memberResponses g' = <[uid ex_guest := ex_full_responses]> (memberResponses ex_group) /\
    id g' = id ex_group /\ name g' = name ex_group /\
    description g' = description ex_group /\
    ownerId g' = ownerId ex_group /\ ownerName g' = ownerName ex_group /\
    ownerPhotoURL g' = ownerPhotoURL ex_group /\
    assignments g' = assignments ex_group /\
    customFields g' = customFields ex_group /\ createdAt g' = createdAt ex_group /\
    drawRunAt g' = drawRunAt ex_group.
Proof.
  apply (join_success ex_guest " AbCdEfGhIjKlMnOpQrSt " ex_full_responses ex_store ex_group).
  - vm_compute. discriminate.
  - reflexivity.
  - apply (bool_decide_unpack _). vm_compute. reflexivity.
  - reflexivity.
Defined.

Lemma join_answers_shown_witness :
  exists g' : Group,
    handleJoinGroup (Some ex_guest) " AbCdEfGhIjKlMnOpQrSt " ex_full_responses ex_store
    = (Done (Some "Welcome aboard! You have joined the group."),
       <[trim " AbCdEfGhIjKlMnOpQrSt " := g']> ex_store) /\
    shown_responses g' (uid ex_guest)
    = map (fun f => (label f, default "" (ex_full_responses !! field_id f)))
          (default [] (customFields ex_group)) /\
    (forall f, f ∈ default [] (customFields ex_group) ->
       exists v, ex_full_responses !! field_id f = Some v /\ trim v <> "").
Proof.
  apply (join_answers_shown ex_guest " AbCdEfGhIjKlMnOpQrSt " ex_full_responses
           ex_store ex_group).
  - vm_compute. discriminate.
  - reflexivity.
  - apply (bool_decide_unpack _). vm_compute. reflexivity.
  - reflexivity.
Defined.

Lemma join_untouched_form_fails_witness :
  let '(_, fields, joinResponses) :=
    loadGroupFields "AbCdEfGhIjKlMnOpQrSt" (store_getDoc ex_store) in
  fields = default [] (customFields ex_group) /\
  handleJoinGroup (Some ex_guest) "AbCdEfGhIjKlMnOpQrSt" joinResponses ex_store
  = (Failed ("Please fill out all required fields: "
             ++ join ", " (map label (default [] (customFields ex_group)))), ex_store).
Proof.
  apply (join_untouched_form_fails ex_guest "AbCdEfGhIjKlMnOpQrSt" ex_store ex_group).
  - vm_compute. lia.
  - reflexivity.
  - apply (bool_decide_unpack _). vm_compute. reflexivity.
  - vm_compute. discriminate.
Defined.

Lemma concurrent_joins_both_kept_witness :
  exists d, ex_store_j2 !! jw_doc ex_write_guest = Some d /\
    jw_uid ex_write_guest ∈ memberIds d /\ jw_uid ex_write_erin ∈ memberIds d /\
    members d !! jw_uid ex_write_erin = Some (jw_profile ex_write_erin) /\
    (jw_uid ex_write_guest <> jw_uid ex_write_erin ->
     members d !! jw_uid ex_write_guest = Some (jw_profile ex_write_guest)).
Proof.
  apply (concurrent_joins_both_kept ex_write_guest ex_write_erin ex_store
           ex_store_j1 ex_store_j2).
  - reflexivity.
  - vm_compute. reflexivity.
  - vm_compute. reflexivity.
Defined.

Lemma delete_then_join_write_witness :
  let st' := (handleDeleteGroup (Some ex_owner) ex_group true ex_store).2 in
  st' !! id ex_group = None /\
  (forall k, k <> id ex_group -> st' !! k = ex_store !! k) /\
  join_commit ex_write_guest st' = None /\
  exec_op (OpJoinCommit ex_write_guest) st' = st'.
Proof.
  apply (delete_then_join_write ex_owner ex_group ex_store ex_write_guest);
    reflexivity.
Defined.

Lemma draw_skips_member_missing_from_view_witness :
  exists d' asg,
    handleRunDraw (Some ex_owner) ex_group ex_pick 7%Z {[ id ex_group := ex_group_now ]}
    = (Done (Some "Draw completed! Everyone now has someone to surprise."),
       <[id ex_group := d']> {[ id ex_group := ex_group_now ]}) /\
    "erin" ∈ memberIds d' /\ assignments d' = Some asg /\
    asg !! "erin" = None /\
    (forall g a, asg !! g = Some a -> recipientId a <> "erin").
Proof.
  apply (draw_skips_member_missing_from_view ex_owner ex_group ex_group_now ex_pick
           7%Z {[ id ex_group := ex_group_now ]} "erin").
  - intros i. unfold ex_pick. lia.
  - reflexivity.
  - simpl. lia.
  - reflexivity.
  - apply (bool_decide_unpack _). vm_compute. reflexivity.
  - apply (bool_decide_unpack _). vm_compute. reflexivity.
Defined.

Lemma create_then_join_witness :
  let '(_, _, st1) := handleCreateGroup (Some ex_owner) " Office Party " ""
                        [] "NewGroupId0000000000" 3%Z ex_store in
  exists g',
    handleJoinGroup (Some ex_guest) "NewGroupId0000000000" ex_responses st1
    = (Done (Some "Welcome aboard! You have joined the group."),
       <["NewGroupId0000000000" := g']> st1) /\
    memberIds g' = [uid ex_owner; uid ex_guest] /\
    ownerId g' = uid ex_owner /\
    members g' !! uid ex_owner = Some {| displayName := getDisplayName ex_owner;
                                         photoURL := user_photoURL ex_owner |} /\
    members g' !! uid ex_guest = Some {| displayName := getDisplayName ex_guest;
                                         photoURL := user_photoURL ex_guest |}.
Proof.
  apply (create_then_join ex_owner ex_guest " Office Party " "" "NewGroupId0000000000"
           3%Z ex_responses ex_store).
  - vm_compute. discriminate.
  - discriminate.
  - vm_compute. reflexivity.
  - discriminate.
Defined.

Lemma snapshot_lists_own_groups_newest_first_witness :
  let groups := snapshot_groups (rev (query_docs "alice" ex_store2)) in
  (forall k, (exists g, g ∈ groups /\ id g = k) <->
             (exists d, ex_store2 !! k = Some d /\ "alice" ∈ memberIds d)) /\
  List.NoDup (map id groups) /\
  Sorted (fun a b => (createdAt_millis b <= createdAt_millis a)%Z) groups.
Proof.
  apply (snapshot_lists_own_groups_newest_first "alice" ex_store2).
  symmetry. apply Permutation_rev.
Defined.

Lemma delete_removes_from_all_lists_witness :
  handleDeleteGroup (Some ex_owner) ex_group false ex_store = (Ignored, ex_store) /\
  forall (viewer : string) (docs : list (string * Group)),
    docs ≡ₚ query_docs viewer (handleDeleteGroup (Some ex_owner) ex_group true ex_store).2 ->
    forall g, g ∈ snapshot_groups docs -> id g <> id ex_group.
Proof.
  apply (delete_removes_from_all_lists ex_owner ex_group ex_store). reflexivity.
Defined.

Lemma field_editor_keeps_ids_witness :
  (("field_3" ∉ map field_id ex_fields) ->
     NoDup (map field_id (add_field ex_fields "field_3"))) /\
  NoDup (map field_id (set_field_label ex_fields 0 "Size")) /\
  NoDup (map field_id (set_field_placeholder ex_fields 0 "Size")) /\
  NoDup (map field_id (remove_field ex_fields 0)) /\
  (forall j, j <> 0 ->
     set_field_label ex_fields 0 "Size" !! j = ex_fields !! j /\
     set_field_placeholder ex_fields 0 "Size" !! j = ex_fields !! j) /\
  (0 < length ex_fields ->
     label (set_field_label ex_fields 0 "Size" !!! 0) = "Size" /\
     placeholder (set_field_placeholder ex_fields 0 "Size" !!! 0) = Some "Size").
Proof.
  apply (field_editor_keeps_ids ex_fields 0 "Size" "field_3").
  apply (bool_decide_unpack _). vm_compute. reflexivity.
Defined.

Lemma shuffle_is_permutation_witness :
  shuffle ex_pick ["alice"; "carol"; "dave"] ≡ₚ ["alice"; "carol"; "dave"] /\
  length (shuffle ex_pick ["alice"; "carol"; "dave"]) = 3 /\
  (forall x, x ∈ shuffle ex_pick ["alice"; "carol"; "dave"] <->
             x ∈ ["alice"; "carol"; "dave"]).
Proof.
  apply (shuffle_is_permutation ex_pick ["alice"; "carol"; "dave"]).
  intros i. unfold ex_pick. lia.
Defined.

Lemma draw_after_delete_fails_witness :
  let st' := (handleDeleteGroup (Some ex_owner) ex_group true ex_store).2 in
  handleRunDraw (Some ex_owner) ex_group ex_pick 7%Z st'
  = (Failed "Something went wrong running the draw. Please try again.", st') /\
  st' !! id ex_group = None.
Proof.
  apply (draw_after_delete_fails ex_owner ex_group ex_pick 7%Z ex_store).
  - reflexivity.
  - simpl. lia.
Defined.

Lemma create_then_load_fields_witness :
  let '(_, _, st1) := handleCreateGroup (Some ex_owner) " Office Party " ""
                        ex_fields "NewGroupId0000000000" 3%Z ex_store in
  loadGroupFields "NewGroupId0000000000" (store_getDoc st1)
  = (["NewGroupId0000000000"], ex_fields, initial_responses ex_fields) /\
  forall f, f ∈ ex_fields -> initial_responses ex_fields !! field_id f = Some "".
Proof.
  apply (create_then_load_fields ex_owner " Office Party " "" "NewGroupId0000000000"
           ex_fields 3%Z ex_store).
  - vm_compute. discriminate.
  - vm_compute. reflexivity.
  - vm_compute. lia.
  - discriminate.
Defined.
